(** * The NetFlow collector's decode-and-retry loop

    A shallow embedding of [netflow/wise_collector.py]: the request handler
    that queues datagrams, [ThreadedNetFlowListener] with its [run]
    loop, [stop], [join] and [get], and the helpers and the main loop of
    the consumer script.

    Conventions.
    - [time.time()] values are rationals; the subtraction in the age test
      is exact.
    - Each of the two queues is a list whose head is the next item [get]
      returns; [put] appends at the tail.
    - The threads are interleaved at the granularity of [event]: one
      datagram handled, one iteration of the [while] loop of [run]
      (the test of the flag at the loop head included), one call of
      [start], [stop], [join] or a non-blocking [get].  A blocking [get]
      is a suspended caller that looks at the output queue again each
      time it runs.
    - Every queue operation and logger call of an event is recorded, in
      program order, in the [effects] of the event's label; the queues of
      the next state are computed from these effects.
    - A [RawPacket] built by the handler is a fresh Python object.  Its
      identity is the [oid] of a [queued] entry: two datagrams with equal
      time stamp, sender and payload are still two objects. *)

From Stdlib Require Import QArith ZArith List String Ascii Bool Lia Lqa.
From Stdlib Require Import DecimalString DecimalZ DecimalPos.
From stdpp Require Import base option list gmap strings.

Local Open Scope string_scope.
Local Open Scope Z_scope.
Local Open Scope list_scope.

(** ** Data *)

(** [RawPacket = namedtuple('RawPacket', ['ts', 'client', 'data'])] *)
Module RawPacket.
Record t : Type := mk { ts : Q; client : string * Z; data : list Byte.byte }.
End RawPacket.

(** The header fields of a decoded export that [run] reads. *)
Module Header.
Record t : Type := mk { version : Z; count : Z; length : Z }.
End Header.

(** Modelled from the spec: the classes of decoded exports live in
    [netflow/v1.py], [v5.py], [v9.py] and [ipfix.py], outside this source
    tree.  An export exposes header fields (version, record count,
    length), a sequence of flow records (each a mapping of field name to
    value) and the boolean flag saying that it introduced new templates. *)
Record Export : Type := mkExport {
  header : Header.t;
  contains_new_templates : bool;
  flows : list (list (string * Z))
}.

(** [ParsedPacket = namedtuple('ParsedPacket', ['ts', 'client', 'export'])] *)
Module ParsedPacket.
Record t : Type := mk { ts : Q; client : string * Z; export : Export }.
End ParsedPacket.

(** Modelled from the spec: a template is an exporter-announced schema, a
    sequence of (field id, width) pairs; its class is declared outside
    this source tree. *)
Definition TemplateRecord : Type := list (Z * Z).

(** [templates = {"netflow": {}, "ipfix": {}}]: two dictionaries from
    template id to template. *)
Record Templates : Type := mkTemplates {
  netflow : gmap Z TemplateRecord;
  ipfix : gmap Z TemplateRecord
}.

Definition no_templates : Templates := {| netflow := ∅; ipfix := ∅ |}.

(** What a call [parse_packet(pkt.data, templates)] can do, as seen by the
    [try] statement around it. *)
Inductive parse_outcome : Type :=
| Returned (export : Export)
| RaisedUnknownExportVersion
| RaisedTemplateNotRecognized   (* V9TemplateNotRecognized or IPFIXTemplateNotRecognized *)
| RaisedOther (exn : string).

(** [parse_packet] is imported from [netflow/utils.py] and is not part of
    this source tree.  It is a parameter of the loop: a function of the
    payload and of the template dictionaries, which it updates in place
    (also when it raises), hence the second component. *)
Definition decoder : Type :=
  list Byte.byte → Templates → parse_outcome * Templates.

(** [PACKET_TIMEOUT = 60 * 60] *)
Definition PACKET_TIMEOUT : Q := (60 * 60)%Q.

(** [time.time() - pkt.ts > PACKET_TIMEOUT] *)
Definition timed_out (now ts : Q) : bool :=
  negb (Qle_bool (now - ts) PACKET_TIMEOUT).

(** A reference to a [RawPacket] object held in a queue or in [to_retry]. *)
Record queued : Type := Queued { oid : nat; pkt : RawPacket.t }.

Inductive level : Type := DEBUG | INFO | WARNING | ERROR.

(** The observable operations of one event, in program order. *)
Inductive effect : Type :=
| Log (lvl : level) (msg : string)      (* logger.debug/info/warning/error, by format string *)
| InputPut (p : queued)                 (* self.input.put(p) *)
| OutputPut (pp : ParsedPacket.t)       (* self.output.put(pp) *)
| ServerShutdown                        (* self.server.shutdown() *)
| ServerClose.                          (* self.server.server_close() *)

(** State of the thread that executes [run]. *)
Inductive thread_state : Type :=
| Initial                 (* constructed, [start] not called yet *)
| Running                 (* inside the [while] loop *)
| Exited                  (* the loop ended on the shutdown flag *)
| Died (exn : string).    (* an exception left [run] *)

(** The listener object together with the locals of [run]. *)
Record listener : Type := mkListener {
  input : list queued;              (* self.input *)
  output : list ParsedPacket.t;     (* self.output *)
  serving : bool;                   (* self.server is open and self.thread serves it *)
  _shutdown : bool;                 (* self._shutdown.is_set() *)
  run_state : thread_state;
  templates : Templates;            (* local of run *)
  to_retry : list queued;           (* local of run *)
  next_oid : nat                    (* identity of the next object built *)
}.

(** [ThreadedNetFlowListener.__init__]: both queues empty, the UDP server
    listening, the flag clear, the decode thread not started. *)
Definition init : listener :=
  {| input := []; output := []; serving := true; _shutdown := false;
     run_state := Initial; templates := no_templates; to_retry := [];
     next_oid := 0%nat |}.

(** How a call made from outside ends. *)
Inductive call_result : Type :=
| Done
| Blocked                  (* the caller stays suspended *)
| Raised (exn : string).

Record label : Type := mkLabel {
  attempted : option queued;   (* the packet taken from the input queue *)
  effects : list effect;
  result : call_result
}.

Inductive event : Type :=
| Handle (now : Q) (client_address : string * Z) (data : list Byte.byte)
| Start
| Iterate (now : Q)
| Stop
| Join (timeout : option Q)
| Get.

Definition input_puts (effs : list effect) : list queued :=
  omap (λ e, match e with InputPut p => Some p | _ => None end) effs.

Definition output_puts (effs : list effect) : list ParsedPacket.t :=
  omap (λ e, match e with OutputPut pp => Some pp | _ => None end) effs.

Definition log_calls (effs : list effect) : list (level * string) :=
  omap (λ e, match e with Log l m => Some (l, m) | _ => None end) effs.

(** [export.header.version in [9, 10]] *)
Definition version_in_9_10 (export : Export) : bool :=
  (Header.version (header export) =? 9) || (Header.version (header export) =? 10).

(** Truth value of a list: [to_retry] is true when it is not empty. *)
Definition truthy {A} (l : list A) : bool :=
  match l with [] => false | _ => true end.

(** The [logger.debug] call after a successful decode. *)
Definition processed (export : Export) : effect :=
  if Header.version (header export) =? 10
  then Log DEBUG "Processed an IPFIX ExportPacket with length %d."
  else Log DEBUG "Processed a v%d ExportPacket with %d flows.".

(** [ParsedPacket(pkt.ts, pkt.client, export)] *)
Definition parsed (p : queued) (export : Export) : ParsedPacket.t :=
  ParsedPacket.mk (RawPacket.ts (pkt p)) (RawPacket.client (pkt p)) export.

(** Modelled from the spec: a stand-in for [parse_packet], which is
    outside this source tree, used only to run the loop on concrete
    datagrams.  It fails with the unsupported-version condition when the
    leading version byte is not 1, 5, 9 or 10, fails with the
    template-not-recognized condition when a v9/IPFIX data record
    references a template id absent from the dictionaries, and otherwise
    returns an export.  Layout of a datagram: version byte; for v9/IPFIX a
    kind byte (0: template definition, otherwise data record) and a
    template id byte.  A datagram too short for its header makes the
    stand-in raise another exception, as [struct.unpack] does. *)
Definition toy_parse_packet : decoder := λ data tpl,
  let export v new_tpl :=
    {| header := Header.mk v 1 (Z.of_nat (List.length data));
       contains_new_templates := new_tpl; flows := [] |} in
  let family v := if v =? 9 then netflow tpl else ipfix tpl in
  let store v m :=
    if v =? 9 then {| netflow := m; ipfix := ipfix tpl |}
    else {| netflow := netflow tpl; ipfix := m |} in
  match data with
  | [] => (RaisedOther "struct.error", tpl)
  | b :: rest =>
      let v := Z.of_N (Byte.to_N b) in
      if (v =? 1) || (v =? 5) then (Returned (export v false), tpl)
      else if (v =? 9) || (v =? 10) then
        match rest with
        | kind :: id :: _ =>
            let i := Z.of_N (Byte.to_N id) in
            if (Byte.to_N kind =? 0)%N then
              (Returned (export v (bool_decide (family v !! i = None))),
               store v (<[i := []]> (family v)))
            else
              match family v !! i with
              | Some _ => (Returned (export v false), tpl)
              | None => (RaisedTemplateNotRecognized, tpl)
              end
        | _ => (RaisedOther "struct.error", tpl)
        end
      else (RaisedUnknownExportVersion, tpl)
  end.

Section Collector.

Variable parse_packet : decoder.

(** ** The body of the [while] loop of [run], after a packet was taken

    Result: the effects in program order, the template dictionaries after
    the call of the decoder, the new [to_retry], and the exception that
    leaves the loop, if any. *)
Definition run_body (now : Q) (p : queued) (tpl : Templates)
    (retry : list queued) :
    list effect * Templates * list queued * option string :=
  match parse_packet (RawPacket.data (pkt p)) tpl with
  | (RaisedUnknownExportVersion, tpl') =>
      ([Log ERROR "%s, ignoring the packet"], tpl', retry, None)
  | (RaisedTemplateNotRecognized, tpl') =>
      if timed_out now (RawPacket.ts (pkt p)) then
        ([Log WARNING "Dropping an old and undecodable v9/IPFIX ExportPacket"],
         tpl', retry, None)
      else
        ([Log DEBUG "Failed to decode a v9/IPFIX ExportPacket - will re-attempt when a new template is discovered"],
         tpl', retry ++ [p], None)
  | (RaisedOther exn, tpl') => ([], tpl', retry, Some exn)
  | (Returned export, tpl') =>
      if version_in_9_10 export && contains_new_templates export && truthy retry
      then
        ([processed export;
          Log DEBUG "Received new template(s)";
          Log DEBUG "Will re-attempt to decode %d old v9/IPFIX ExportPackets"]
           ++ map InputPut retry ++ [OutputPut (parsed p export)],
         tpl', [], None)
      else ([processed export; OutputPut (parsed p export)], tpl', retry, None)
  end.

(** The [finally] clause of [run]. *)
Definition finally_clause : list effect := [ServerShutdown; ServerClose].

Definition quiet : label :=
  {| attempted := None; effects := []; result := Done |}.

(** ** One event *)
Definition step (s : listener) (ev : event) : listener * label :=
  match ev with
  | Handle now client_address data =>
      (* QueuingRequestHandler.handle, while the server is open *)
      if serving s then
        let p := Queued (next_oid s) (RawPacket.mk now client_address data) in
        let effs := [InputPut p; Log DEBUG "Received %d bytes of data from %s"] in
        ({| input := input s ++ input_puts effs; output := output s;
            serving := serving s; _shutdown := _shutdown s;
            run_state := run_state s; templates := templates s;
            to_retry := to_retry s; next_oid := S (next_oid s) |},
         {| attempted := None; effects := effs; result := Done |})
      else (s, quiet)
  | Start =>
      (* Thread.start: runs [run] up to the loop head *)
      match run_state s with
      | Initial =>
          ({| input := input s; output := output s; serving := serving s;
              _shutdown := _shutdown s; run_state := Running;
              templates := no_templates; to_retry := [];
              next_oid := next_oid s |}, quiet)
      | _ =>
          (s, {| attempted := None; effects := [];
                 result := Raised "RuntimeError" |})
      end
  | Iterate now =>
      match run_state s with
      | Running =>
          if _shutdown s then
            (* the loop condition is false: leave through [finally] *)
            ({| input := input s; output := output s; serving := false;
                _shutdown := _shutdown s; run_state := Exited;
                templates := templates s; to_retry := to_retry s;
                next_oid := next_oid s |},
             {| attempted := None; effects := finally_clause; result := Done |})
          else
            match input s with
            | [] => (s, quiet)    (* queue.Empty after 0.5 s: continue *)
            | p :: rest =>
                match run_body now p (templates s) (to_retry s) with
                | (effs, tpl', retry', None) =>
                    ({| input := rest ++ input_puts effs;
                        output := output s ++ output_puts effs;
                        serving := serving s; _shutdown := _shutdown s;
                        run_state := Running; templates := tpl';
                        to_retry := retry'; next_oid := next_oid s |},
                     {| attempted := Some p; effects := effs; result := Done |})
                | (effs, tpl', retry', Some exn) =>
                    ({| input := rest ++ input_puts effs;
                        output := output s ++ output_puts effs;
                        serving := false; _shutdown := _shutdown s;
                        run_state := Died exn; templates := tpl';
                        to_retry := retry'; next_oid := next_oid s |},
                     {| attempted := Some p; effects := effs ++ finally_clause;
                        result := Done |})
                end
            end
      | _ => (s, quiet)
      end
  | Stop =>
      ({| input := input s; output := output s; serving := serving s;
          _shutdown := true; run_state := run_state s;
          templates := templates s; to_retry := to_retry s;
          next_oid := next_oid s |},
       {| attempted := None;
          effects := [Log INFO "Shutting down the NetFlow listener"];
          result := Done |})
  | Join timeout =>
      (* self.thread.join(timeout=timeout); super().join(timeout=timeout) *)
      let lbl r := {| attempted := None; effects := []; result := r |} in
      match timeout, serving s with
      | None, true => (s, lbl Blocked)
      | _, _ =>
          match run_state s, timeout with
          | Initial, _ => (s, lbl (Raised "RuntimeError"))
          | Running, None => (s, lbl Blocked)
          | _, _ => (s, lbl Done)
          end
      end
  | Get =>
      (* get(block=False) *)
      match output s with
      | [] => (s, {| attempted := None; effects := [];
                     result := Raised "queue.Empty" |})
      | _ :: rest =>
          ({| input := input s; output := rest; serving := serving s;
              _shutdown := _shutdown s; run_state := run_state s;
              templates := templates s; to_retry := to_retry s;
              next_oid := next_oid s |}, quiet)
      end
  end.

(** A schedule of events, with the labels it produces. *)
Fixpoint exec (s : listener) (evs : list event) : listener * list label :=
  match evs with
  | [] => (s, [])
  | ev :: evs' =>
      let (s', l) := step s ev in
      let (s'', ls) := exec s' evs' in
      (s'', l :: ls)
  end.

(** ** Vocabulary of the statements *)

(** The label records that packet [p] was taken and a [ParsedPacket] was
    pushed on the output queue. *)
Definition emits (l : label) (p : queued) : Prop :=
  attempted l = Some p ∧ output_puts (effects l) ≠ [].

(** The label is a retry pass: an iteration of the loop that put held
    packets back on the input queue. *)
Definition retry_pass (l : label) : Prop :=
  is_Some (attempted l) ∧ input_puts (effects l) ≠ [].

(** The label records the template miss of a young packet: the packet
    is kept for a later attempt. *)
Definition buffered (l : label) : Prop :=
  effects l =
    [Log DEBUG "Failed to decode a v9/IPFIX ExportPacket - will re-attempt when a new template is discovered"].

(** The states a schedule can reach from a fresh listener. *)
Definition reachable (s : listener) : Prop :=
  ∃ evs, s = (exec init evs).1.

(** The thread that ran [run] has terminated and the [finally] clause has
    closed the server. *)
Definition finished (s : listener) : Prop :=
  (run_state s = Exited ∨ ∃ exn, run_state s = Died exn) ∧ serving s = false.

(** The objects the loop still holds, by identity. *)
Definition oids (s : listener) : list nat :=
  oid <$> (input s ++ to_retry s).

(** Every object is held at most once, identities are allocated in
    increasing order, and [to_retry] exists only once [run] has begun. *)
Definition wf (s : listener) : Prop :=
  NoDup (oids s)
  ∧ Forall (λ n, (n < next_oid s)%nat) (oids s)
  ∧ (run_state s = Initial → to_retry s = []).

(** Object [p] was built earlier and the loop no longer holds it. *)
Definition gone (p : queued) (s : listener) : Prop :=
  (oid p ∉ oids s) ∧ (oid p < next_oid s)%nat.



Definition is_stop_or_join (ev : event) : bool :=
  match ev with Stop | Join _ => true | _ => false end.

(** The paths of an iteration that takes packet [p] from the head of the
    input queue, with the state and the label each one leaves. *)
Inductive iterate_path (s : listener) (now : Q) (p : queued)
    (rest : list queued) : listener → label → Prop :=
| path_unknown_version tpl' :
    parse_packet (RawPacket.data (pkt p)) (templates s)
      = (RaisedUnknownExportVersion, tpl') →
    iterate_path s now p rest
      {| input := rest; output := output s; serving := serving s;
         _shutdown := _shutdown s; run_state := Running; templates := tpl';
         to_retry := to_retry s; next_oid := next_oid s |}
      {| attempted := Some p;
         effects := [Log ERROR "%s, ignoring the packet"];
         result := Done |}
| path_stale tpl' :
    parse_packet (RawPacket.data (pkt p)) (templates s)
      = (RaisedTemplateNotRecognized, tpl') →
    timed_out now (RawPacket.ts (pkt p)) = true →
    iterate_path s now p rest
      {| input := rest; output := output s; serving := serving s;
         _shutdown := _shutdown s; run_state := Running; templates := tpl';
         to_retry := to_retry s; next_oid := next_oid s |}
      {| attempted := Some p;
         effects :=
           [Log WARNING "Dropping an old and undecodable v9/IPFIX ExportPacket"];
         result := Done |}
| path_buffer tpl' :
    parse_packet (RawPacket.data (pkt p)) (templates s)
      = (RaisedTemplateNotRecognized, tpl') →
    timed_out now (RawPacket.ts (pkt p)) = false →
    iterate_path s now p rest
      {| input := rest; output := output s; serving := serving s;
         _shutdown := _shutdown s; run_state := Running; templates := tpl';
         to_retry := to_retry s ++ [p]; next_oid := next_oid s |}
      {| attempted := Some p;
         effects :=
           [Log DEBUG "Failed to decode a v9/IPFIX ExportPacket - will re-attempt when a new template is discovered"];
         result := Done |}
| path_other exn tpl' :
    parse_packet (RawPacket.data (pkt p)) (templates s)
      = (RaisedOther exn, tpl') →
    iterate_path s now p rest
      {| input := rest; output := output s; serving := false;
         _shutdown := _shutdown s; run_state := Died exn; templates := tpl';
         to_retry := to_retry s; next_oid := next_oid s |}
      {| attempted := Some p; effects := finally_clause; result := Done |}
| path_retry export tpl' :
    parse_packet (RawPacket.data (pkt p)) (templates s)
      = (Returned export, tpl') →
    version_in_9_10 export = true →
    contains_new_templates export = true →
    to_retry s ≠ [] →
    iterate_path s now p rest
      {| input := rest ++ to_retry s;
         output := output s ++ [parsed p export]; serving := serving s;
         _shutdown := _shutdown s; run_state := Running; templates := tpl';
         to_retry := []; next_oid := next_oid s |}
      {| attempted := Some p;
         effects :=
           [processed export;
            Log DEBUG "Received new template(s)";
            Log DEBUG "Will re-attempt to decode %d old v9/IPFIX ExportPackets"]
             ++ map InputPut (to_retry s) ++ [OutputPut (parsed p export)];
         result := Done |}
| path_plain export tpl' :
    parse_packet (RawPacket.data (pkt p)) (templates s)
      = (Returned export, tpl') →
    (version_in_9_10 export && contains_new_templates export
       && truthy (to_retry s)) = false →
    iterate_path s now p rest
      {| input := rest; output := output s ++ [parsed p export];
         serving := serving s; _shutdown := _shutdown s;
         run_state := Running; templates := tpl';
         to_retry := to_retry s; next_oid := next_oid s |}
      {| attempted := Some p;
         effects := [processed export; OutputPut (parsed p export)];
         result := Done |}.

End Collector.

(** ** [get]

    Modelled from the spec: [get] hands its arguments to
    [queue.Queue.get] of the standard library, which is outside this
    source tree; the model follows the docstring of [get].  A caller
    that finds the output queue empty raises [queue.Empty] or is
    suspended; a suspended caller looks at the queue again each time it
    runs, which is when a packet was put or when its time is up.  A
    negative timeout is rejected with [ValueError]. *)

(** How far a call of [get] has come. *)
Inductive get_result : Type :=
| Got (pp : ParsedPacket.t)        (* the call returns [pp] *)
| Suspended (endtime : option Q)   (* the caller waits, until [endtime] if it gave a timeout *)
| Failed (exn : string).           (* the call raises *)

(** One look at the output queue at time [now].  [wait] is [None] for a
    caller that does not block, [Some None] for one that waits without
    limit, [Some (Some endtime)] for one that waits until [endtime]. *)
Definition poll (s : listener) (now : Q) (wait : option (option Q)) :
    listener * get_result :=
  match output s with
  | pp :: rest =>
      ({| input := input s; output := rest; serving := serving s;
          _shutdown := _shutdown s; run_state := run_state s;
          templates := templates s; to_retry := to_retry s;
          next_oid := next_oid s |}, Got pp)
  | [] =>
      match wait with
      | None => (s, Failed "queue.Empty")
      | Some None => (s, Suspended None)
      | Some (Some endtime) =>
          if Qle_bool endtime now then (s, Failed "queue.Empty")
          else (s, Suspended (Some endtime))
      end
  end.

(** [get(block, timeout)], called at time [now]. *)
Definition get (block : bool) (timeout : option Q) (now : Q) (s : listener) :
    listener * get_result :=
  if block then
    match timeout with
    | None => poll s now (Some None)
    | Some t =>
        if Qle_bool 0 t then poll s now (Some (Some (now + t)%Q))
        else (s, Failed "ValueError")
    end
  else poll s now None.

(** What happens while a caller of [get] is suspended: the listener
    makes a step, or the caller runs again at time [now]. *)
Inductive action : Type :=
| Sys (ev : event)
| Wake (now : Q).

Section GetCall.

Variable parse_packet : decoder.

(** A suspended call over the actions that follow. *)
Fixpoint pending (s : listener) (endtime : option Q) (acts : list action) :
    listener * get_result :=
  match acts with
  | [] => (s, Suspended endtime)
  | Sys ev :: acts' => pending (step parse_packet s ev).1 endtime acts'
  | Wake now :: acts' =>
      match poll s now (Some endtime) with
      | (s', Suspended endtime') => pending s' endtime' acts'
      | r => r
      end
  end.

(** A call of [get] at time [now], followed by [acts]; what comes after
    the call has returned or raised is not part of it. *)
Definition get_call (block : bool) (timeout : option Q) (now : Q)
    (s : listener) (acts : list action) : listener * get_result :=
  match get block timeout now s with
  | (s', Suspended endtime) => pending s' endtime acts
  | r => r
  end.

End GetCall.

(** ** Streams read off a schedule *)

(** The objects the request handler queued, in order. *)
Definition handled (ls : list label) : list queued :=
  concat (map (λ l, match attempted l with
                    | None => input_puts (effects l)
                    | Some _ => []
                    end) ls).

(** The packets the loop took from the input queue, in order. *)
Definition taken (ls : list label) : list queued := omap attempted ls.

(** Everything pushed on the output queue, in order. *)
Definition emitted (ls : list label) : list ParsedPacket.t :=
  concat (map (λ l, output_puts (effects l)) ls).

(** [buffered], as a test. *)
Definition is_buffered (l : label) : bool :=
  match effects l with
  | [Log DEBUG m] =>
      String.eqb m "Failed to decode a v9/IPFIX ExportPacket - will re-attempt when a new template is discovered"
  | _ => false
  end.

(** The packets the loop took and did not keep for a retry: emitted,
    dropped, or the one whose decode ended the loop. *)
Definition released (ls : list label) : list queued :=
  omap (λ l, if is_buffered l then None else attempted l) ls.

(** The template dictionaries after the decoder has been called on the
    given packets in turn. *)
Definition templates_after (parse_packet : decoder) (tpl : Templates)
    (ps : list queued) : Templates :=
  foldl (λ t p, (parse_packet (RawPacket.data (pkt p)) t).2) tpl ps.

(** The event is a call of [get]. *)
Definition is_get (ev : event) : bool :=
  match ev with Get => true | _ => false end.

(** What the handler makes of a datagram: [RawPacket(time.time(),
    self.client_address, data)]. *)
Definition datagram : Type := Q * (string * Z) * list Byte.byte.

Definition raw (d : datagram) : RawPacket.t :=
  RawPacket.mk d.1.1 d.1.2 d.2.

Definition handle_all (ds : list datagram) : list event :=
  map (λ d, Handle d.1.1 d.1.2 d.2) ds.

(** The arrival time and sender of a queued packet and of an emitted
    one. *)
Definition origin_raw (p : queued) : Q * (string * Z) :=
  (RawPacket.ts (pkt p), RawPacket.client (pkt p)).

Definition origin_parsed (pp : ParsedPacket.t) : Q * (string * Z) :=
  (ParsedPacket.ts pp, ParsedPacket.client pp).

(** ** The listener's socket and the helpers of the consumer script *)

(** [socket.AF_INET], the default of the UDP server, and [socket.AF_INET6]. *)
Inductive address_family : Type := AF_INET | AF_INET6.

(** [":" in interface[0]] *)
Definition has_colon (host : string) : bool :=
  existsb (Ascii.eqb ":") (list_ascii_of_string host).

(** [QueuingUDPListener.__init__]: the family the socket is opened with. *)
Definition listener_family (interface : string * Z) : address_family :=
  if has_colon interface.1 then AF_INET6 else AF_INET.

(** [filename(epoch)]: ["{}.gz".format(epoch)], for the integer [epoch]. *)
Definition filename (epoch : Z) : string :=
  String.append (NilZero.string_of_int (Z.to_int epoch)) ".gz".

(** The exceptions the consumer's code can meet. *)
Inductive exn : Type :=
| KeyError (key : string)     (* a dictionary has no such key *)
| TypeError                   (* a value is not iterable, or cannot be indexed by a string *)
| ValueError                  (* [ipaddress] or [response.json()] rejects its input *)
| RequestException.           (* [requests.get] or [requests.post] fails *)

(** How a call of one of the consumer's functions ends. *)
Inductive outcome (A : Type) : Type :=
| Returns (a : A)
| Raises (e : exn).
Arguments Returns {A} a.
Arguments Raises {A} e.

(** What [response.json()] can return: [None], a [bool], a number (as
    its literal), a [str], a [list] or a [dict] with string keys. *)
#[warnings="-register-all"]
Inductive json_value : Type :=
| JNull
| JBool (b : bool)
| JNumber (literal : string)
| JString (s : string)
| JArray (items : list json_value)
| JObject (members : gmap string json_value).

(** [for data in v]: the values the loop variable takes.  A list gives
    its items, a dict its keys, a string its characters; [None], a
    [bool] and a number are not iterable. *)
Definition iterate (v : json_value) : outcome (list json_value) :=
  match v with
  | JArray items => Returns items
  | JObject members => Returns (JString <$> (map_to_list members).*1)
  | JString s =>
      Returns ((λ c, JString (String c EmptyString)) <$> list_ascii_of_string s)
  | JNull | JBool _ | JNumber _ => Raises TypeError
  end.

(** [data[key]] for a string [key]: only a dict can be indexed so. *)
Definition subscript (data : json_value) (key : string) : outcome json_value :=
  match data with
  | JObject members =>
      match members !! key with
      | Some v => Returns v
      | None => Raises (KeyError key)
      end
  | _ => Raises TypeError
  end.

(** The loop of [cidr_blocks_from_request] over the values of
    [for data in response.json()]. *)
Fixpoint cidr_blocks_loop (cidr_blocks : list json_value)
    (items : list json_value) : outcome (list json_value) :=
  match items with
  | [] => Returns cidr_blocks
  | data :: rest =>
      match subscript data "ip_range" with
      | Returns range => cidr_blocks_loop (cidr_blocks ++ [range]) rest
      | Raises e => Raises e
      end
  end.

(** [cidr_blocks_from_request(response)].  The argument is what
    [response.json()] yields: [None] when the body is not JSON and the
    call raises, otherwise the decoded value, whatever its shape. *)
Definition cidr_blocks_from_request (response : option json_value) :
    outcome (list json_value) :=
  match response with
  | None => Raises ValueError
  | Some body =>
      match iterate body with
      | Raises e => Raises e
      | Returns items => cidr_blocks_loop [] items
      end
  end.

(** A flow record: [flow.data], field name to value. *)
Definition flow : Type := list (string * Z).

(** [flow.data[name]] *)
Definition field (name : string) (f : flow) : option Z :=
  snd <$> List.find (λ kv, String.eqb kv.1 name) f.

Section Filter.

(** The [ipaddress] module of the standard library is a parameter:
    [ip_address] and [ip_network] yield [None] where the library raises
    [ValueError]; [contains n a] is [a in n].  A block is whatever the
    caller has in its list. *)
Context {Ip Block Address Network : Type}.
Variable ip_address : Ip → option Address.
Variable ip_network : Block → option Network.
Variable contains : Network → Address → bool.

(** [in_cidr_block(ip, cidr_blocks)].  In each round the address is
    parsed first, then the block. *)
Fixpoint in_cidr_block (ip : Ip) (cidr_blocks : list Block) :
    outcome bool :=
  match cidr_blocks with
  | [] => Returns false
  | cidr :: rest =>
      match ip_address ip with
      | None => Raises ValueError
      | Some a =>
          match ip_network cidr with
          | None => Raises ValueError
          | Some n => if contains n a then Returns true else in_cidr_block ip rest
          end
      end
  end.

End Filter.

(** What the consumer does to the outside, in program order. *)
Inductive io : Type :=
| Post (authorized : bool) (epoch : Z)  (* requests.post of the file of that cut; with or without headers *)
| Sleep (seconds : Z)                   (* time.sleep *)
| Remove (epoch : Z)                    (* os.remove(filename(epoch)) *)
| GetFilter                             (* requests.get(FilterUrl, headers) *)
| Append (epoch : Z) (ts : Q) (client : string * Z) (flows : list flow)
                                        (* one line appended to filename(epoch) *)
| LogError (e : exn).                   (* logger.error(e) *)

(** The [for i in range(0, 3)] loop after the first POST: [status] is
    [r.status_code], [i] the loop variable, [rounds] the rounds left;
    [answer k] is the status of the POST number [k] of this upload, or
    [None] when that call raises. *)
Fixpoint retry_post (answer : nat → option Z) (epoch : Z) (status : Z)
    (i : nat) (rounds : nat) : list io * option exn :=
  match rounds with
  | O => ([], None)
  | S rounds' =>
      if status =? 200 then ([], None)
      else
        match answer (S i) with
        | None =>
            ([Sleep (Z.of_nat i + 1); Post false epoch], Some RequestException)
        | Some status' =>
            let (effs, e) := retry_post answer epoch status' (S i) rounds' in
            (Sleep (Z.of_nat i + 1) :: Post false epoch :: effs, e)
        end
  end.

(** The first POST, with the authorization header, and its retries. *)
Definition upload (answer : nat → option Z) (epoch : Z) :
    list io * option exn :=
  match answer 0%nat with
  | None => ([Post true epoch], Some RequestException)
  | Some status =>
      let (effs, e) := retry_post answer epoch status 0 3 in
      (Post true epoch :: effs, e)
  end.

(** [duration_of_cut = 300] *)
Definition duration_of_cut : Z := 300.

(** [int(time.time())]: truncation toward zero. *)
Definition int (t : Q) : Z := Z.quot (Qnum t) (Z.pos (Qden t)).

(** The variables of the consumer's loop, and the cut files present
    (a file is named by its epoch). *)
Record consumer : Type := mkConsumer {
  current_epoch : Z;
  in_duration_epoch : Z;
  cidr_blocks : list json_value;     (* the [ip_range] values of the last filter read *)
  files : gset Z
}.

(** What the outside answers while one packet is processed. *)
Record answers : Type := mkAnswers {
  clock_test : Q;                (* time.time() in the test of the cut *)
  post_status : nat → option Z;  (* statuses of the POSTs, None: the call raises *)
  filter_reply : option (Z * option json_value);
                                 (* the GET: raises, or status and body,
                                    a body that is not JSON being None *)
  clock_cut : Q                  (* time.time() when the new cut starts *)
}.

Section Consumer.

Context {Address Network : Type}.
Variable ip_address : Z → option Address.
Variable ip_network : json_value → option Network.
Variable contains : Network → Address → bool.

(** The loop over [export.flows] that fills [flows]. *)
Fixpoint select_flows (blocks : list json_value) (flows_so_far : list flow)
    (export_flows : list flow) : outcome (list flow) :=
  match export_flows with
  | [] => Returns flows_so_far
  | f :: rest =>
      match field "IPV4_SRC_ADDR" f with
      | None => Raises (KeyError "IPV4_SRC_ADDR")
      | Some src =>
          match in_cidr_block ip_address ip_network contains src blocks with
          | Raises e => Raises e
          | Returns true => select_flows blocks (flows_so_far ++ [f]) rest
          | Returns false =>
              match field "IPV4_DST_ADDR" f with
              | None => Raises (KeyError "IPV4_DST_ADDR")
              | Some dst =>
                  match in_cidr_block ip_address ip_network contains dst blocks with
                  | Raises e => Raises e
                  | Returns true => select_flows blocks (flows_so_far ++ [f]) rest
                  | Returns false => select_flows blocks flows_so_far rest
                  end
              end
          end
      end
  end.

(** The flow has an address in one of the blocks, as the loop tests it:
    the source first, the destination only when the source is outside. *)
Definition kept (blocks : list json_value) (f : flow) : Prop :=
  (∃ src, field "IPV4_SRC_ADDR" f = Some src
          ∧ in_cidr_block ip_address ip_network contains src blocks
            = Returns true)
  ∨ (∃ src dst,
       field "IPV4_SRC_ADDR" f = Some src
       ∧ in_cidr_block ip_address ip_network contains src blocks
         = Returns false
       ∧ field "IPV4_DST_ADDR" f = Some dst
       ∧ in_cidr_block ip_address ip_network contains dst blocks
         = Returns true).

(** Both addresses of the flow were looked up and found outside. *)
Definition skipped (blocks : list json_value) (f : flow) : Prop :=
  ∃ src dst,
    field "IPV4_SRC_ADDR" f = Some src
    ∧ in_cidr_block ip_address ip_network contains src blocks = Returns false
    ∧ field "IPV4_DST_ADDR" f = Some dst
    ∧ in_cidr_block ip_address ip_network contains dst blocks = Returns false.

(** [if len(flows) > 0]: append the line to the file of the current cut. *)
Definition write_line (st : consumer) (effs : list io)
    (pp : ParsedPacket.t) (flows : list flow) : consumer * list io :=
  match flows with
  | [] => (st, effs)
  | _ =>
      ({| current_epoch := current_epoch st;
          in_duration_epoch := in_duration_epoch st;
          cidr_blocks := cidr_blocks st;
          files := {[current_epoch st]} ∪ files st |},
       effs ++ [Append (current_epoch st) (ParsedPacket.ts pp)
                       (ParsedPacket.client pp) flows])
  end.

(** [current_epoch = int(time.time())] and
    [in_duration_epoch = current_epoch + duration_of_cut]. *)
Definition new_cut (st : consumer) (a : answers) : consumer :=
  {| current_epoch := int (clock_cut a);
     in_duration_epoch := int (clock_cut a) + duration_of_cut;
     cidr_blocks := cidr_blocks st;
     files := files st |}.

(** The body of the [for ts, client, export in get_export_packets(...)]
    loop, with its [except Exception] clause.  The configuration has
    the keys the body reads, and the cut files are touched by this
    script only: the look-ups in [config], opening and removing the
    file, building the entry and writing the line do not raise. *)
Definition consume (st : consumer) (pp : ParsedPacket.t) (a : answers) :
    consumer * list io :=
  match select_flows (cidr_blocks st) [] (flows (ParsedPacket.export pp)) with
  | Raises e => (st, [LogError e])
  | Returns selected =>
      if negb (Qle_bool (clock_test a) (inject_Z (in_duration_epoch st))) then
        if bool_decide (current_epoch st ∈ files st) then
          match upload (post_status a) (current_epoch st) with
          | (effs, Some e) => (st, effs ++ [LogError e])
          | (effs, None) =>
              let st1 :=
                {| current_epoch := current_epoch st;
                   in_duration_epoch := in_duration_epoch st;
                   cidr_blocks := cidr_blocks st;
                   files := files st ∖ {[current_epoch st]} |} in
              let effs1 := effs ++ [Remove (current_epoch st); GetFilter] in
              match filter_reply a with
              | None => (st1, effs1 ++ [LogError RequestException])
              | Some (status, body) =>
                  if status =? 200 then
                    match cidr_blocks_from_request body with
                    | Raises e => (st1, effs1 ++ [LogError e])
                    | Returns blocks =>
                        write_line
                          (new_cut
                             {| current_epoch := current_epoch st1;
                                in_duration_epoch := in_duration_epoch st1;
                                cidr_blocks := blocks;
                                files := files st1 |} a)
                          effs1 pp selected
                    end
                  else write_line (new_cut st1 a) effs1 pp selected
              end
          end
        else write_line (new_cut st a) [] pp selected
      else write_line st [] pp selected
  end.

(** The consumer's loop over the packets it receives. *)
Fixpoint consume_all (st : consumer)
    (packets : list (ParsedPacket.t * answers)) : consumer * list io :=
  match packets with
  | [] => (st, [])
  | (pp, a) :: rest =>
      let (st1, effs1) := consume st pp a in
      let (st2, effs2) := consume_all st1 rest in
      (st2, effs1 ++ effs2)
  end.

End Consumer.

(** Counts over the consumer's operations. *)
Definition is_post (e : io) : bool :=
  match e with Post _ _ => true | _ => false end.

Definition slept (effs : list io) : Z :=
  foldr (λ e acc, match e with Sleep n => n + acc | _ => acc end) 0 effs.

Definition is_log_error (e : io) : bool :=
  match e with LogError _ => true | _ => false end.

Definition is_append (e : io) : bool :=
  match e with Append _ _ _ _ => true | _ => false end.

(** ** Concrete datagrams and schedules

    Used to run the loop with the stand-in decoder. *)
Module Demo.
Import Byte.

Definition sender : string * Z := ("192.0.2.1", 2055).

(** A v9 data record that references template 7. *)
Definition data7 : list byte := [x09; x01; x07].
(** A v9 template record that defines template 7. *)
Definition template7 : list byte := [x09; x00; x07].
(** A v5 export. *)
Definition v5 : list byte := [x05].
(** A datagram whose version byte is 99. *)
Definition v99 : list byte := [x63].
(** An empty datagram. *)
Definition empty : list byte := [].

(** The objects the handler builds for the first and second datagram. *)
Definition first (now : Q) (data : list byte) : queued :=
  Queued 0 (RawPacket.mk now sender data).
Definition second (now : Q) (data : list byte) : queued :=
  Queued 1 (RawPacket.mk now sender data).

(** The data record arrives at time 0, before its template. *)
Definition data_queued : list event := [Start; Handle 0 sender data7].
(** ... and has been tried once, at time 1. *)
Definition data_held : list event := data_queued ++ [Iterate 1].
(** The template arrives at time [t]. *)
Definition template_queued (t : Q) : list event :=
  data_held ++ [Handle t sender template7].
(** The template has been decoded at time [t + 1]. *)
Definition template_decoded (t : Q) : list event :=
  template_queued t ++ [Iterate (t + 1)].

(** An empty datagram followed by a v5 export. *)
Definition empty_then_v5 : list event :=
  [Start; Handle 0 sender empty; Handle 1 sender v5].
(** A version-99 datagram followed by a v5 export. *)
Definition v99_then_v5 : list event :=
  [Start; Handle 0 sender v99; Handle 1 sender v5].
(** A v5 export is queued and [stop] is called. *)
Definition stopped : list event := [Start; Handle 0 sender v5; Stop].
End Demo.

(** ** Concrete blocks, flows and answers

    Used to run the consumer's functions.  The three functions stand for
    [ipaddress.ip_address], [ipaddress.ip_network] and the membership
    test on IPv4 values: an address is an integer below 2^32, a network
    a pair of its first and last address, and only two blocks are
    known to the stand-in parser. *)
Module DemoFilter.

Definition ip_address (v : Z) : option Z :=
  if (0 <=? v) && (v <? 2 ^ 32) then Some v else None.

Definition ip_network (block : json_value) : option (Z * Z) :=
  match block with
  | JString cidr =>
      if String.eqb cidr "10.0.0.0/8" then Some (167772160, 184549375)
      else if String.eqb cidr "192.168.0.0/16"
           then Some (3232235520, 3232301055)
      else None
  | _ => None
  end.

Definition contains (n : Z * Z) (a : Z) : bool :=
  (n.1 <=? a) && (a <=? n.2).

(** 10.1.2.3 *)
Definition inside10 : Z := 167838211.
(** 8.8.8.8 *)
Definition outside : Z := 134744072.

Definition flow_in : flow :=
  [("IPV4_SRC_ADDR", inside10); ("IPV4_DST_ADDR", outside)].
Definition flow_out : flow :=
  [("IPV4_SRC_ADDR", outside); ("IPV4_DST_ADDR", outside)].
Definition flow_to : flow :=
  [("IPV4_SRC_ADDR", outside); ("IPV4_DST_ADDR", inside10)].

Definition packet : ParsedPacket.t :=
  ParsedPacket.mk 1000 ("192.0.2.1", 2055)
    {| header := Header.mk 5 3 0; contains_new_templates := false;
       flows := [flow_in; flow_out; flow_to] |}.

(** A consumer in the cut that began at 1000, with one block and the
    file of that cut present. *)
Definition running : consumer :=
  {| current_epoch := 1000; in_duration_epoch := 1300;
     cidr_blocks := [JString "10.0.0.0/8"]; files := {[1000]} |}.

(** A consumer that started with an empty block list and no file. *)
Definition unfiltered : consumer :=
  {| current_epoch := 1000; in_duration_epoch := 1300;
     cidr_blocks := []; files := ∅ |}.

(** At time 1301 every POST is answered with status 500 and the filter
    request with status 503. *)
Definition all_fail : answers :=
  {| clock_test := 1301; post_status := λ _, Some 500;
     filter_reply := Some (503, None); clock_cut := 1302 |}.

End DemoFilter.

(** ** Properties of the loop *)

Section Correctness.

Variable parse_packet : decoder.

Lemma truthy_true {A} (l : list A) : truthy l = true ↔ l ≠ [].
Proof. destruct l; simpl; split; congruence. Qed.

Lemma timed_out_spec now ts :
  timed_out now ts = true ↔ (PACKET_TIMEOUT < now - ts)%Q.
Proof.
  unfold timed_out. rewrite negb_true_iff. split.
  - intros H. apply Qnot_le_lt. intros Hle.
    apply Qle_bool_iff in Hle. congruence.
  - intros H. destruct (Qle_bool (now - ts) PACKET_TIMEOUT) eqn:E; [|done].
    apply Qle_bool_iff in E. exfalso. by eapply Qlt_not_le.
Qed.

Lemma timed_out_false now ts :
  timed_out now ts = false ↔ ¬ (PACKET_TIMEOUT < now - ts)%Q.
Proof.
  rewrite <- timed_out_spec. destruct (timed_out now ts); split; congruence.
Qed.

Lemma input_puts_map (l : list queued) : input_puts (map InputPut l) = l.
Proof. induction l as [|x l IH]; simpl; [done | by f_equal]. Qed.

Lemma output_puts_map (l : list queued) : output_puts (map InputPut l) = [].
Proof. by induction l. Qed.

Lemma input_puts_app l1 l2 :
  input_puts (l1 ++ l2) = input_puts l1 ++ input_puts l2.
Proof. apply omap_app. Qed.

Lemma output_puts_app l1 l2 :
  output_puts (l1 ++ l2) = output_puts l1 ++ output_puts l2.
Proof. apply omap_app. Qed.

Lemma processed_log export : ∃ m, processed export = Log DEBUG m.
Proof. unfold processed. destruct (_ =? _); eauto. Qed.

Lemma input_puts_retry export (retry : list queued) pp :
  input_puts ([processed export;
               Log DEBUG "Received new template(s)";
               Log DEBUG "Will re-attempt to decode %d old v9/IPFIX ExportPackets"]
              ++ map InputPut retry ++ [OutputPut pp]) = retry.
Proof.
  destruct (processed_log export) as [m ->]. simpl.
  rewrite input_puts_app, input_puts_map. simpl. apply app_nil_r.
Qed.

Lemma output_puts_retry export (retry : list queued) pp :
  output_puts ([processed export;
                Log DEBUG "Received new template(s)";
                Log DEBUG "Will re-attempt to decode %d old v9/IPFIX ExportPackets"]
               ++ map InputPut retry ++ [OutputPut pp]) = [pp].
Proof.
  destruct (processed_log export) as [m ->]. simpl.
  by rewrite output_puts_app, output_puts_map.
Qed.

Lemma puts_plain export pp :
  input_puts [processed export; OutputPut pp] = []
  ∧ output_puts [processed export; OutputPut pp] = [pp].
Proof. by destruct (processed_log export) as [m ->]. Qed.

(** An iteration that finds a packet follows one of the six paths. *)
Lemma step_iterate s now p rest :
  run_state s = Running → _shutdown s = false → input s = p :: rest →
  iterate_path parse_packet s now p rest
    (step parse_packet s (Iterate now)).1 (step parse_packet s (Iterate now)).2.
Proof.
  destruct s as [inp out srv sh rs tpl retry nxt]. simpl.
  intros -> -> ->. unfold run_body.
  destruct (parse_packet (RawPacket.data (pkt p)) tpl)
    as [[export| | |exn] tpl'] eqn:E.
  - destruct (version_in_9_10 export && contains_new_templates export
              && truthy retry) eqn:G.
    + cbn [fst snd]. rewrite input_puts_retry, output_puts_retry.
      apply andb_true_iff in G as [G Ht]. apply andb_true_iff in G as [Hv Hc].
      apply truthy_true in Ht. by eapply path_retry.
    + cbn [fst snd].
      destruct (puts_plain export (parsed p export)) as [-> ->].
      rewrite app_nil_r. by eapply path_plain.
  - simpl. rewrite !app_nil_r. by eapply path_unknown_version.
  - destruct (timed_out now (RawPacket.ts (pkt p))) eqn:T; simpl;
      rewrite !app_nil_r.
    + by eapply path_stale.
    + by eapply path_buffer.
  - simpl. rewrite !app_nil_r. by eapply path_other.
Qed.

(** Case analysis of an iteration [step parse_packet s (Iterate now) = (s', l)]
    that takes a packet. *)
Ltac iterate_paths Hr Hs Hi Hstep :=
  let HP := fresh "HP" in
  match type of Hstep with
  | step _ _ (Iterate ?n) = _ => pose proof (step_iterate _ n _ _ Hr Hs Hi) as HP
  end;
  rewrite Hstep in HP; cbn [fst snd] in HP;
  destruct HP;
  cbn [input output serving _shutdown run_state templates to_retry next_oid
       attempted effects result].

Lemma version_in_9_10_spec export :
  version_in_9_10 export = true
  ↔ Header.version (header export) = 9 ∨ Header.version (header export) = 10.
Proof.
  unfold version_in_9_10. rewrite orb_true_iff, !Z.eqb_eq. tauto.
Qed.

Lemma retry_condition_false export (retry : list queued) :
  (version_in_9_10 export && contains_new_templates export && truthy retry) = false
  ↔ ¬ ((Header.version (header export) = 9 ∨ Header.version (header export) = 10)
       ∧ contains_new_templates export = true ∧ retry ≠ []).
Proof.
  rewrite <- version_in_9_10_spec, <- truthy_true.
  destruct (version_in_9_10 export), (contains_new_templates export),
    (truthy retry); simpl; intuition congruence.
Qed.

(** ** Step-level properties *)

(** C2. A template miss is dropped with a warning when the packet is older
    than [PACKET_TIMEOUT] (3600 seconds) and is appended to [to_retry]
    otherwise; either way nothing is put on the output queue. *)
Theorem template_miss_age_gate s now p rest tpl' s' l :
  run_state s = Running → _shutdown s = false → input s = p :: rest →
  parse_packet (RawPacket.data (pkt p)) (templates s)
    = (RaisedTemplateNotRecognized, tpl') →
  step parse_packet s (Iterate now) = (s', l) →
  PACKET_TIMEOUT = 3600%Q
  ∧ attempted l = Some p
  ∧ ((PACKET_TIMEOUT < now - RawPacket.ts (pkt p))%Q →
       to_retry s' = to_retry s
       ∧ effects l =
           [Log WARNING "Dropping an old and undecodable v9/IPFIX ExportPacket"])
  ∧ (¬ (PACKET_TIMEOUT < now - RawPacket.ts (pkt p))%Q →
       to_retry s' = to_retry s ++ [p])
  ∧ output_puts (effects l) = []
  ∧ output s' = output s
  ∧ input s' = rest
  ∧ run_state s' = Running.
Proof.
  intros Hr Hs Hi Hp Hstep.
  iterate_paths Hr Hs Hi Hstep; try congruence.
  - match goal with H : timed_out _ _ = true |- _ =>
      apply timed_out_spec in H end.
    repeat split; done.
  - match goal with H : timed_out _ _ = false |- _ =>
      apply timed_out_false in H end.
    repeat split; done.
Qed.

(** C3. After a successful decode, when the export has version 9 or 10,
    flags new templates and [to_retry] is not empty, the whole of
    [to_retry] is put back on the input queue in its order and [to_retry]
    is cleared; when one of the three conditions fails, [to_retry] is left
    as it was and nothing is put on the input queue. *)
Theorem retry_buffer_reinjection s now p rest export tpl' s' l :
  run_state s = Running → _shutdown s = false → input s = p :: rest →
  parse_packet (RawPacket.data (pkt p)) (templates s) = (Returned export, tpl') →
  step parse_packet s (Iterate now) = (s', l) →
  ((Header.version (header export) = 9 ∨ Header.version (header export) = 10)
     ∧ contains_new_templates export = true ∧ to_retry s ≠ [] →
   input_puts (effects l) = to_retry s
   ∧ input s' = rest ++ to_retry s
   ∧ to_retry s' = [])
  ∧ (¬ ((Header.version (header export) = 9 ∨ Header.version (header export) = 10)
        ∧ contains_new_templates export = true ∧ to_retry s ≠ []) →
     input_puts (effects l) = []
     ∧ input s' = rest
     ∧ to_retry s' = to_retry s).
Proof.
  intros Hr Hs Hi Hp Hstep.
  iterate_paths Hr Hs Hi Hstep; try congruence.
  - assert (export0 = export) as -> by congruence.
    rewrite input_puts_retry. split; [done|].
    intros Hn. exfalso. apply Hn. by rewrite <- version_in_9_10_spec.
  - assert (export0 = export) as -> by congruence.
    destruct (puts_plain export (parsed p export)) as [-> _].
    split; [|done].
    intros Hc. exfalso. by eapply retry_condition_false.
Qed.

(** C9. A packet that decodes is pushed on the output queue as a
    [ParsedPacket] with the time stamp and the client address of its
    [RawPacket], whatever the current time: no age test is made on this
    path. *)
Theorem decoded_packet_is_emitted s now p rest export tpl' s' l :
  run_state s = Running → _shutdown s = false → input s = p :: rest →
  parse_packet (RawPacket.data (pkt p)) (templates s) = (Returned export, tpl') →
  step parse_packet s (Iterate now) = (s', l) →
  output_puts (effects l)
    = [ParsedPacket.mk (RawPacket.ts (pkt p)) (RawPacket.client (pkt p)) export]
  ∧ output s'
    = output s ++ [ParsedPacket.mk (RawPacket.ts (pkt p))
                                   (RawPacket.client (pkt p)) export]
  ∧ run_state s' = Running.
Proof.
  intros Hr Hs Hi Hp Hstep.
  iterate_paths Hr Hs Hi Hstep; try congruence.
  - assert (export0 = export) as -> by congruence.
    by rewrite output_puts_retry.
  - assert (export0 = export) as -> by congruence.
    by destruct (puts_plain export (parsed p export)) as [_ ->].
Qed.

(** ** Schedules *)

Lemma exec_cons s ev evs :
  exec parse_packet s (ev :: evs)
  = ((exec parse_packet (step parse_packet s ev).1 evs).1,
     (step parse_packet s ev).2 :: (exec parse_packet (step parse_packet s ev).1 evs).2).
Proof.
  simpl. destruct (step parse_packet s ev) as [s1 l1]. simpl.
  by destruct (exec parse_packet s1 evs).
Qed.


(** The three shapes of an event, as far as the packets held by the loop
    are concerned: a datagram is queued; a packet is taken by the loop;
    or nothing moves. *)
Lemma step_cases s ev s' l :
  wf s → step parse_packet s ev = (s', l) →
  (∃ now c d, ev = Handle now c d
     ∧ input s' = input s ++ [Queued (next_oid s) (RawPacket.mk now c d)]
     ∧ to_retry s' = to_retry s ∧ next_oid s' = S (next_oid s)
     ∧ attempted l = None
     ∧ run_state s' = run_state s ∧ _shutdown s' = _shutdown s)
  ∨ (∃ now p rest, ev = Iterate now
     ∧ run_state s = Running ∧ _shutdown s = false ∧ input s = p :: rest
     ∧ iterate_path parse_packet s now p rest s' l)
  ∨ (input s' = input s ∧ to_retry s' = to_retry s
     ∧ next_oid s' = next_oid s ∧ attempted l = None
     ∧ input_puts (effects l) = [] ∧ output_puts (effects l) = []
     ∧ (run_state s' = Initial → run_state s = Initial)).
Proof.
  intros (_ & _ & Hinit) Hstep.
  destruct ev as [now c d| |now| |timeout|].
  - simpl in Hstep. destruct (serving s) eqn:Hsv.
    + left. injection Hstep as <- <-. by exists now, c, d.
    + right; right. injection Hstep as <- <-. repeat split; auto.
  - right; right. simpl in Hstep. destruct (run_state s) eqn:Hr;
      injection Hstep as <- <-; simpl; rewrite ?Hr;
      repeat split; auto; try congruence; symmetry; auto.
  - destruct (run_state s) eqn:Hr;
      try (right; right; simpl in Hstep; rewrite Hr in Hstep;
           injection Hstep as <- <-; repeat split; auto; congruence).
    destruct (_shutdown s) eqn:Hs.
    { right; right. simpl in Hstep. rewrite Hr, Hs in Hstep.
      injection Hstep as <- <-. repeat split; auto; simpl; congruence. }
    destruct (input s) as [|p rest] eqn:Hi.
    { right; right. simpl in Hstep. rewrite Hr, Hs, Hi in Hstep.
      injection Hstep as <- <-. rewrite Hi. repeat split; auto; congruence. }
    right; left. exists now, p, rest. repeat split; try done.
    pose proof (step_iterate s now p rest Hr Hs Hi) as HP.
    by rewrite Hstep in HP.
  - right; right. injection Hstep as <- <-. repeat split; auto.
  - right; right. simpl in Hstep.
    destruct timeout, (serving s), (run_state s) eqn:Hr;
      injection Hstep as <- <-; repeat split; auto; congruence.
  - right; right. simpl in Hstep. destruct (output s);
      injection Hstep as <- <-; repeat split; auto.
Qed.

Lemma wf_init : wf init.
Proof. repeat split; [constructor | constructor]. Qed.

Lemma oids_split (inp retry : list queued) :
  oid <$> (inp ++ retry) = (oid <$> inp) ++ (oid <$> retry).
Proof. apply fmap_app. Qed.

Lemma wf_step s ev : wf s → wf (step parse_packet s ev).1.
Proof.
  intros Hwf. destruct (step parse_packet s ev) as [s' l] eqn:Hstep.
  pose proof Hwf as (Hnd & Hlt & Hinit).
  destruct (step_cases _ _ _ _ Hwf Hstep)
    as [(now & c & d & -> & Hi & Ht & Hn & _ & Hr & _)
       |[(now & p & rest & -> & Hr & Hs & Hi & HP)
        |(Hi & Ht & Hn & _ & _ & _ & Hri)]]; simpl.
  - unfold wf, oids in *. rewrite Hi, Ht, Hn, Hr.
    split; [|split; [|done]].
    + rewrite <- app_assoc. rewrite oids_split, fmap_app in *. simpl.
      apply NoDup_app in Hnd as (Ha & Hb & Hc).
      rewrite Forall_app in Hlt. destruct Hlt as [Hl1 Hl2].
      rewrite Forall_forall in Hl1, Hl2.
      apply NoDup_app. split; [done|]. split.
      * intros x Hx Hx'. apply elem_of_cons in Hx' as [->|Hx'].
        { apply Hl1 in Hx. lia. }
        by eapply Hb.
      * constructor; [|done]. intros Hx. apply Hl2 in Hx. lia.
    + rewrite <- app_assoc. rewrite oids_split, fmap_app in *. simpl.
      rewrite Forall_app in Hlt. destruct Hlt as [Hl1 Hl2].
      rewrite Forall_app. split.
      * eapply Forall_impl; [done|]. simpl. lia.
      * constructor; [lia|]. eapply Forall_impl; [done|]. simpl. lia.
  - unfold wf, oids in *. rewrite Hi in *. simpl in Hnd, Hlt.
    apply NoDup_cons in Hnd as [Hp Hnd].
    apply Forall_cons in Hlt as [Hplt Hlt].
    destruct HP; simpl; try (by repeat split).
    + split; [|split; [|done]].
      * rewrite app_assoc, fmap_app. simpl.
        apply NoDup_app. split; [done|]. split.
        { intros x Hx Hx'. apply list_elem_of_singleton in Hx' as ->. done. }
        apply NoDup_singleton.
      * rewrite app_assoc, fmap_app. simpl.
        rewrite Forall_app. split; [done|]. by constructor.
    + rewrite app_nil_r. repeat split; done.
  - unfold wf, oids in *. rewrite Hi, Ht, Hn. repeat split; try done.
    intros Hr'. auto.
Qed.

Lemma wf_exec s evs : wf s → wf (exec parse_packet s evs).1.
Proof.
  revert s. induction evs as [|ev evs IH]; intros s Hwf; [done|].
  rewrite exec_cons. simpl. apply IH. by apply wf_step.
Qed.

(** ** Identity of the held packets *)

(** An event creates at most the one object it numbers; every other
    packet held afterwards was held before, and the packet it takes was
    on the input queue. *)
Lemma held_after_step s ev s' l :
  wf s → step parse_packet s ev = (s', l) →
  (∀ q, q ∈ input s' ++ to_retry s' →
        q ∈ input s ++ to_retry s ∨ oid q = next_oid s)
  ∧ (next_oid s ≤ next_oid s')%nat
  ∧ (∀ q, attempted l = Some q → ∃ rest, input s = q :: rest).
Proof.
  intros Hwf Hstep.
  destruct (step_cases _ _ _ _ Hwf Hstep)
    as [(now & c & d & -> & Hi & Ht & Hn & Ha & _)
       |[(now & p & rest & -> & Hr & Hs & Hi & HP)
        |(Hi & Ht & Hn & Ha & _)]].
  - rewrite Hi, Ht, Hn, Ha. split; [|split; [lia|done]].
    intros q Hq. rewrite !elem_of_app, list_elem_of_singleton in Hq.
    rewrite elem_of_app. destruct Hq as [[?| ->]|?]; auto.
  - rewrite Hi. destruct HP; cbn [input to_retry next_oid attempted];
      (split; [|split; [lia|intros ? [= <-]; eauto]]);
      intros q; rewrite ?app_nil_r, !elem_of_app, ?elem_of_cons,
                  ?elem_of_nil; tauto.
  - rewrite Hi, Ht, Hn, Ha. split; [|split; [lia|done]]. auto.
Qed.

Lemma elem_of_oids p s : p ∈ input s ++ to_retry s → oid p ∈ oids s.
Proof. intros H. unfold oids. by apply list_elem_of_fmap_2. Qed.

(** A packet the loop has let go is never taken again. *)
Lemma gone_step s ev s' l p :
  wf s → gone p s → step parse_packet s ev = (s', l) →
  gone p s' ∧ attempted l ≠ Some p.
Proof.
  intros Hwf [Hnot Hlt] Hstep.
  destruct (held_after_step _ _ _ _ Hwf Hstep) as (Hsub & Hn & Hatt).
  split; [split|].
  - intros Hin. unfold oids in Hin.
    apply list_elem_of_fmap in Hin as (q & Hq & Hin).
    destruct (Hsub _ Hin) as [Hold|Hnew].
    + apply Hnot. rewrite Hq. by apply elem_of_oids.
    + lia.
  - lia.
  - intros Ha. destruct (Hatt _ Ha) as [rest Hi].
    apply Hnot, elem_of_oids. rewrite Hi. set_solver.
Qed.

Lemma gone_exec s evs p :
  wf s → gone p s →
  gone p (exec parse_packet s evs).1
  ∧ ∀ l, l ∈ (exec parse_packet s evs).2 → attempted l ≠ Some p.
Proof.
  revert s. induction evs as [|ev evs IH]; intros s Hwf Hg.
  - split; [done|]. intros l Hl. by apply elem_of_nil in Hl.
  - rewrite exec_cons. cbn [fst snd].
    destruct (step parse_packet s ev) as [s1 l1] eqn:Hstep. cbn [fst snd].
    destruct (gone_step _ _ _ _ _ Hwf Hg Hstep) as [Hg1 Ha1].
    assert (wf s1) as Hwf1.
    { replace s1 with (step parse_packet s ev).1 by by rewrite Hstep.
      by apply wf_step. }
    destruct (IH s1 Hwf1 Hg1) as [Hg2 Ha2]. split; [done|].
    intros l Hl. apply elem_of_cons in Hl as [->|Hl]; auto.
Qed.

(** After a packet is taken, it is either back in [to_retry] (the
    template miss of a young packet) or the loop has let go of it. *)
Lemma taken_step s ev s' l p :
  wf s → step parse_packet s ev = (s', l) → attempted l = Some p →
  (to_retry s' = to_retry s ++ [p] ∧ buffered l)
  ∨ (gone p s' ∧ ¬ buffered l).
Proof.
  intros Hwf Hstep Ha.
  destruct (step_cases _ _ _ _ Hwf Hstep)
    as [(now & c & d & -> & Hi & Ht & Hn & Ha' & _)
       |[(now & p' & rest & -> & Hr & Hs & Hi & HP)
        |(Hi & Ht & Hn & Ha' & _)]]; try congruence.
  destruct Hwf as (Hnd & Hlt & _). unfold oids in Hnd, Hlt.
  rewrite Hi in Hnd, Hlt. simpl in Hnd, Hlt.
  apply NoDup_cons in Hnd as [Hp Hnd].
  apply Forall_cons in Hlt as [Hplt Hlt].
  clear Hstep.
  destruct HP;
    cbn [attempted effects input to_retry next_oid] in *;
    injection Ha as ->;
    try (right; split; [|unfold buffered; cbn [effects]; congruence];
         split; [|done]; unfold oids;
         cbn [input to_retry]; rewrite ?app_nil_r; done).
  - by left.
  - right. by split.
  - right. split; [split; [|done]|].
    + unfold oids. cbn [input to_retry]. by rewrite app_nil_r.
    + unfold buffered. cbn [effects].
      destruct (processed_log export) as [m ->]. simpl. congruence.
Qed.


(** A held packet stays in [to_retry], untouched, until an iteration
    decodes another packet whose export has version 9 or 10 and flags new
    templates; that iteration puts the held packet on the input queue
    and pushes its own packet on the output queue. *)
Lemma held_step s ev s' l p :
  wf s → p ∈ to_retry s → step parse_packet s ev = (s', l) →
  (p ∈ to_retry s' ∧ attempted l ≠ Some p ∧ ¬ retry_pass l)
  ∨ (∃ q export,
       attempted l = Some q ∧ q ≠ p
       ∧ input_puts (effects l) = to_retry s
       ∧ output_puts (effects l) = [parsed q export]
       ∧ (Header.version (header export) = 9 ∨ Header.version (header export) = 10)
       ∧ contains_new_templates export = true
       ∧ p ∈ input s' ∧ p ∉ to_retry s').
Proof.
  intros Hwf Hp Hstep.
  destruct (step_cases _ _ _ _ Hwf Hstep)
    as [(now & c & d & -> & Hi & Ht & Hn & Ha & _)
       |[(now & q & rest & -> & Hr & Hs & Hi & HP)
        |(Hi & Ht & Hn & Ha & Hip & _)]].
  - left. rewrite Ht, Ha. repeat split; try done.
    intros [[? ?] _]. congruence.
  - assert (q ≠ p) as Hne.
    { intros ->. destruct Hwf as (Hnd & _). unfold oids in Hnd.
      rewrite Hi in Hnd. simpl in Hnd. apply NoDup_cons in Hnd as [Hn _].
      apply Hn. apply list_elem_of_fmap_2. set_solver. }
    destruct HP; cbn [attempted effects input to_retry].
    1-4, 6: left; repeat split; [set_solver | congruence |];
      intros [_ Hx]; simpl in Hx; try done.
    + by destruct (puts_plain export (parsed q export)) as [? _].
    + right. exists q, export.
      rewrite input_puts_retry, output_puts_retry.
      repeat split; try done.
      * by apply version_in_9_10_spec.
      * set_solver.
      * set_solver.
  - left. rewrite Ht, Ha. repeat split; try done.
    intros [_ ?]. done.
Qed.

Lemma let_go_step s ev s' l p :
  wf s → step parse_packet s ev = (s', l) →
  attempted l = Some p → ¬ buffered l → gone p s'.
Proof.
  intros Hwf Hstep Ha Hb.
  by destruct (taken_step _ _ _ _ _ Hwf Hstep Ha) as [[_ ?]|[? _]].
Qed.

Lemma step_pair s ev :
  step parse_packet s ev
  = ((step parse_packet s ev).1, (step parse_packet s ev).2).
Proof. by destruct (step parse_packet s ev). Qed.

(** ** Properties of whole schedules *)



(** Without such an iteration a held packet stays where it is: nothing
    else removes an entry of [to_retry], whatever the clock says. *)
Lemma held_without_retry_pass s evs p :
  wf s → p ∈ to_retry s →
  (∀ l, l ∈ (exec parse_packet s evs).2 → ¬ retry_pass l) →
  p ∈ to_retry (exec parse_packet s evs).1
  ∧ ∀ l, l ∈ (exec parse_packet s evs).2 → attempted l ≠ Some p.
Proof.
  revert s. induction evs as [|ev evs IH]; intros s Hwf Hp Hno.
  { split; [done|]. intros l Hl. by apply elem_of_nil in Hl. }
  rewrite exec_cons in Hno |- *. cbn [fst snd] in Hno |- *.
  pose proof (wf_step s ev Hwf) as Hwf1.
  destruct (held_step _ _ _ _ _ Hwf Hp (step_pair s ev))
    as [(Hp1 & Hna & _)|(q & export & Hq & Hne & Hin & _)].
  - destruct (IH _ Hwf1 Hp1) as [Hfin Hatt].
    { intros l Hl. apply Hno. apply elem_of_cons; by right. }
    split; [done|]. intros l Hl.
    apply elem_of_cons in Hl as [->|Hl]; auto.
  - exfalso. apply (Hno (step parse_packet s ev).2); [apply elem_of_cons; by left|].
    split; [by rewrite Hq|]. rewrite Hin. intros Hnil.
    rewrite Hnil in Hp. by apply elem_of_nil in Hp.
Qed.


Lemma reachable_wf s : reachable parse_packet s → wf s.
Proof. intros [evs ->]. apply wf_exec, wf_init. Qed.


(** ** After the loop has ended *)

Lemma finished_step s ev :
  finished s →
  finished (step parse_packet s ev).1
  ∧ run_state (step parse_packet s ev).1 = run_state s
  ∧ input (step parse_packet s ev).1 = input s
  ∧ to_retry (step parse_packet s ev).1 = to_retry s
  ∧ templates (step parse_packet s ev).1 = templates s
  ∧ attempted (step parse_packet s ev).2 = None
  ∧ input_puts (effects (step parse_packet s ev).2) = []
  ∧ output_puts (effects (step parse_packet s ev).2) = [].
Proof.
  intros [Hr Hsv]. unfold finished.
  destruct s as [inp out srv sh rs tpl retry nxt]. simpl in Hr, Hsv. subst srv.
  destruct Hr as [->|[exn ->]];
    destruct ev as [now c d| |now| |[timeout|]|]; simpl;
    try destruct out; simpl; eauto 12.
Qed.

Lemma finished_exec s evs :
  finished s →
  finished (exec parse_packet s evs).1
  ∧ run_state (exec parse_packet s evs).1 = run_state s
  ∧ input (exec parse_packet s evs).1 = input s
  ∧ to_retry (exec parse_packet s evs).1 = to_retry s
  ∧ templates (exec parse_packet s evs).1 = templates s
  ∧ ∀ l, l ∈ (exec parse_packet s evs).2 →
         attempted l = None
         ∧ input_puts (effects l) = [] ∧ output_puts (effects l) = [].
Proof.
  revert s. induction evs as [|ev evs IH]; intros s Hf.
  { split_and!; try done. intros l Hl. by apply elem_of_nil in Hl. }
  rewrite exec_cons. cbn [fst snd].
  destruct (finished_step s ev Hf) as (Hf1 & Hr1 & Hi1 & Ht1 & Htp1 & Hl1).
  destruct (IH _ Hf1) as (Hf2 & Hr2 & Hi2 & Ht2 & Htp2 & Hl2).
  rewrite Hr2, Hi2, Ht2, Htp2. split_and!; try done.
  intros l Hl. apply elem_of_cons in Hl as [->|Hl]; [apply Hl1 | by apply Hl2].
Qed.

(** ** Progress of the queue *)



(** ** The control surface *)

Lemma shutdown_sticky s evs :
  _shutdown s = true → _shutdown (exec parse_packet s evs).1 = true.
Proof.
  revert s. induction evs as [|ev evs IH]; intros s Hs; [done|].
  rewrite exec_cons. cbn [fst]. apply IH.
  destruct s as [inp out srv sh rs tpl retry nxt]. simpl in Hs. subst sh.
  destruct ev as [now c d| |now| |timeout|]; simpl.
  - by destruct srv.
  - by destruct rs.
  - by destruct rs.
  - done.
  - by destruct timeout, srv, rs.
  - by destruct out.
Qed.

(** Once the thread has been started, [stop] and [join] return or wait;
    they do not raise. *)
Lemma started_step s ev :
  run_state s ≠ Initial →
  run_state (step parse_packet s ev).1 ≠ Initial
  ∧ (is_stop_or_join ev = true →
     ∀ exn, result (step parse_packet s ev).2 ≠ Raised exn).
Proof.
  destruct s as [inp out srv sh rs tpl retry nxt]. simpl. intros Hr.
  destruct ev as [now c d| |now| |timeout|]; simpl.
  - by destruct srv.
  - by destruct rs.
  - destruct rs; try done.
    destruct sh; [done|]. destruct inp; [done|].
    by destruct (run_body _ _ _ _ _) as [[[? ?] ?] [?|]].
  - done.
  - by destruct timeout, srv, rs.
  - by destruct out.
Qed.

Lemma started_exec s evs :
  run_state s ≠ Initial →
  ∀ ev l, (ev, l) ∈ zip evs (exec parse_packet s evs).2 →
          is_stop_or_join ev = true → ∀ exn, result l ≠ Raised exn.
Proof.
  revert s. induction evs as [|ev evs IH]; intros s Hr ev' l Hin Hev exn.
  { by apply elem_of_nil in Hin. }
  rewrite exec_cons in Hin. cbn [snd zip zip_with] in Hin.
  destruct (started_step s ev Hr) as [Hr1 Hno].
  apply elem_of_cons in Hin as [[= -> ->]|Hin].
  - by apply Hno.
  - by eapply IH.
Qed.

(** ** The claims about failures and shutdown *)

(** C1, as the code has it.  An exception of the decoder other than the
    unsupported-version and template-not-recognized conditions is not
    caught by the loop: the packet has left the input queue, it is
    neither kept for retry nor emitted, no logger call is made, the
    [finally] clause shuts down and closes the server, and the thread
    dies with that exception; the packets behind it are never taken. *)
Theorem other_exception_ends_the_loop s now p rest exn tpl' s' l :
  run_state s = Running → _shutdown s = false → input s = p :: rest →
  parse_packet (RawPacket.data (pkt p)) (templates s) = (RaisedOther exn, tpl') →
  step parse_packet s (Iterate now) = (s', l) →
  attempted l = Some p
  ∧ effects l = [ServerShutdown; ServerClose]
  ∧ log_calls (effects l) = []
  ∧ input s' = rest ∧ output s' = output s ∧ to_retry s' = to_retry s
  ∧ run_state s' = Died exn ∧ serving s' = false
  ∧ ∀ evs,
      run_state (exec parse_packet s' evs).1 = Died exn
      ∧ input (exec parse_packet s' evs).1 = rest
      ∧ ∀ l', l' ∈ (exec parse_packet s' evs).2 →
              attempted l' = None ∧ output_puts (effects l') = [].
Proof.
  intros Hr Hs Hi Hp Hstep.
  iterate_paths Hr Hs Hi Hstep; try congruence.
  assert (exn0 = exn) as -> by congruence.
  split_and!; try done.
  intros evs.
  match goal with |- context [exec parse_packet ?s1 evs] =>
    destruct (finished_exec s1 evs) as (_ & Hr' & Hi' & _ & _ & Hl)
  end.
  { split; [right; eauto|done]. }
  split_and!; try done. intros l' Hl'. by destruct (Hl l' Hl') as (? & _ & ?).
Qed.

(** C6. A packet of an unsupported version is logged and discarded: it
    is not put in [to_retry], nothing is emitted, the loop goes on with
    the next packet, and the discarded packet is never taken again. *)
Theorem unknown_version_is_discarded s now p rest tpl' s' l :
  reachable parse_packet s →
  run_state s = Running → _shutdown s = false → input s = p :: rest →
  parse_packet (RawPacket.data (pkt p)) (templates s)
    = (RaisedUnknownExportVersion, tpl') →
  step parse_packet s (Iterate now) = (s', l) →
  effects l = [Log ERROR "%s, ignoring the packet"]
  ∧ to_retry s' = to_retry s ∧ (p ∉ to_retry s')
  ∧ output s' = output s
  ∧ input s' = rest ∧ run_state s' = Running ∧ _shutdown s' = false
  ∧ (∀ now' q rest', rest = q :: rest' →
       attempted (step parse_packet s' (Iterate now')).2 = Some q)
  ∧ ∀ evs l', l' ∈ (exec parse_packet s' evs).2 → attempted l' ≠ Some p.
Proof.
  intros Hreach Hr Hs Hi Hp Hstep.
  pose proof (reachable_wf _ Hreach) as Hwf.
  assert (gone p s') as Hg.
  { eapply let_go_step; [done|done| |].
    - destruct (held_after_step _ _ _ _ Hwf Hstep) as (_ & _ & _).
      iterate_paths Hr Hs Hi Hstep; done.
    - iterate_paths Hr Hs Hi Hstep; unfold buffered; cbn [effects];
        try congruence. }
  assert (wf s') as Hwf'.
  { replace s' with (step parse_packet s (Iterate now)).1 by by rewrite Hstep.
    by apply wf_step. }
  assert (p ∉ to_retry s') as Hnot.
  { intros Hin. destruct Hg as [Hg _]. apply Hg, elem_of_oids. set_solver. }
  assert (∀ evs l', l' ∈ (exec parse_packet s' evs).2 → attempted l' ≠ Some p)
    as Hnever.
  { intros evs. by destruct (gone_exec _ evs _ Hwf' Hg). }
  clear Hg Hwf'.
  iterate_paths Hr Hs Hi Hstep; try congruence.
  split_and!; try done.
  intros now' q rest' ->.
  match goal with |- context [step parse_packet ?s1 (Iterate now')] =>
    pose proof (step_iterate s1 now' q rest' eq_refl Hs eq_refl) as HP
  end.
  by destruct HP.
Qed.

(** C8. Once the flag is set, the iteration that tests it takes no packet:
    it leaves through the [finally] clause, which shuts down and closes
    the server, and no later event makes the loop take a packet or emit
    one.  The flag, once set by [stop], stays set.  On a started
    listener no call of [stop] or [join], however often and in whatever
    order, raises. *)
Theorem shutdown_observed_and_idempotent s now s' l :
  run_state s = Running → _shutdown s = true →
  step parse_packet s (Iterate now) = (s', l) →
  (attempted l = None
   ∧ effects l = [ServerShutdown; ServerClose]
   ∧ input s' = input s ∧ output s' = output s ∧ to_retry s' = to_retry s
   ∧ run_state s' = Exited ∧ serving s' = false)
  ∧ (∀ evs,
       run_state (exec parse_packet s' evs).1 = Exited
       ∧ input (exec parse_packet s' evs).1 = input s
       ∧ ∀ l', l' ∈ (exec parse_packet s' evs).2 →
               attempted l' = None ∧ output_puts (effects l') = [])
  ∧ (∀ s1 evs,
       _shutdown (exec parse_packet (step parse_packet s1 Stop).1 evs).1 = true)
  ∧ (∀ evs ev l',
       (ev, l') ∈ zip evs (exec parse_packet s evs).2 →
       is_stop_or_join ev = true → ∀ exn, result l' ≠ Raised exn).
Proof.
  intros Hr Hs Hstep.
  assert (s' = {| input := input s; output := output s; serving := false;
                  _shutdown := _shutdown s; run_state := Exited;
                  templates := templates s; to_retry := to_retry s;
                  next_oid := next_oid s |}
          ∧ l = {| attempted := None; effects := finally_clause;
                   result := Done |}) as [-> ->].
  { simpl in Hstep. rewrite Hr, Hs in Hstep. injection Hstep as <- <-.
    by rewrite Hs. }
  split_and!; try done.
  - intros evs.
    match goal with |- context [exec parse_packet ?s1 evs] =>
      destruct (finished_exec s1 evs) as (_ & Hr' & Hi' & _ & _ & Hl)
    end.
    { split; [by left|done]. }
    split_and!; try done.
    intros l' Hl'. by destruct (Hl l' Hl') as (? & _ & ?).
  - intros s1 evs. by apply shutdown_sticky.
  - intros evs ev l' Hin Hev exn. eapply started_exec; eauto. congruence.
Qed.

(** ** The claims about held packets *)

Lemma decoded_emits s now p rest export tpl' :
  run_state s = Running → _shutdown s = false → input s = p :: rest →
  parse_packet (RawPacket.data (pkt p)) (templates s) = (Returned export, tpl') →
  emits (step parse_packet s (Iterate now)).2 p
  ∧ output_puts (effects (step parse_packet s (Iterate now)).2)
    = [parsed p export].
Proof.
  intros Hr Hs Hi Hp.
  destruct (step parse_packet s (Iterate now)) as [s' l] eqn:Hstep.
  cbn [fst snd]. unfold emits.
  iterate_paths Hr Hs Hi Hstep; try congruence.
  - assert (export0 = export) as -> by congruence.
    by rewrite output_puts_retry.
  - assert (export0 = export) as -> by congruence.
    by destruct (puts_plain export (parsed p export)) as [_ ->].
Qed.





(** C5, as the code has it.  A held packet is never evicted by the
    passing of time alone: in a schedule without a retry pass it stays
    in [to_retry] and is not taken, whatever the clock says.  When it is
    taken again (after a retry pass) at an age above [PACKET_TIMEOUT],
    it is dropped with a warning if the decoder fails again with the
    template-not-recognized condition, and is then never taken or emitted
    again; if instead the decoder returns an export, the packet is
    emitted in spite of its age. *)
Theorem stale_entry_dropped_only_on_failed_retry evs0 p :
  p ∈ to_retry (exec parse_packet init evs0).1 →
  (∀ evs,
     (∀ l, l ∈ (exec parse_packet (exec parse_packet init evs0).1 evs).2 →
           ¬ retry_pass l) →
     p ∈ to_retry (exec parse_packet (exec parse_packet init evs0).1 evs).1
     ∧ ∀ l, l ∈ (exec parse_packet (exec parse_packet init evs0).1 evs).2 →
            attempted l ≠ Some p)
  ∧ (∀ evs now rest s1,
       s1 = (exec parse_packet (exec parse_packet init evs0).1 evs).1 →
       run_state s1 = Running → _shutdown s1 = false → input s1 = p :: rest →
       (PACKET_TIMEOUT < now - RawPacket.ts (pkt p))%Q →
       (∀ tpl',
          parse_packet (RawPacket.data (pkt p)) (templates s1)
            = (RaisedTemplateNotRecognized, tpl') →
          effects (step parse_packet s1 (Iterate now)).2
            = [Log WARNING "Dropping an old and undecodable v9/IPFIX ExportPacket"]
          ∧ (p ∉ input (step parse_packet s1 (Iterate now)).1)
          ∧ (p ∉ to_retry (step parse_packet s1 (Iterate now)).1)
          ∧ ∀ evs' l', l' ∈ (exec parse_packet
                               (step parse_packet s1 (Iterate now)).1 evs').2 →
                       attempted l' ≠ Some p)
       ∧ (∀ export tpl',
            parse_packet (RawPacket.data (pkt p)) (templates s1)
              = (Returned export, tpl') →
            emits (step parse_packet s1 (Iterate now)).2 p
            ∧ output_puts (effects (step parse_packet s1 (Iterate now)).2)
              = [parsed p export])).
Proof.
  intros Hp.
  assert (wf (exec parse_packet init evs0).1) as Hwf by apply wf_exec, wf_init.
  split.
  - intros evs Hno. by apply held_without_retry_pass.
  - intros evs now rest s1 -> Hr Hs Hi Hold.
    set (s1 := (exec parse_packet (exec parse_packet init evs0).1 evs).1) in *.
    assert (wf s1) as Hwf1 by by apply wf_exec.
    split; [|intros export tpl' Hdec; by eapply decoded_emits].
    intros tpl' Hmiss.
    destruct (step parse_packet s1 (Iterate now)) as [s2 l2] eqn:Hstep.
    cbn [fst snd].
    assert (wf s2) as Hwf2.
    { replace s2 with (step parse_packet s1 (Iterate now)).1 by by rewrite Hstep.
      by apply wf_step. }
    assert (effects l2 =
              [Log WARNING "Dropping an old and undecodable v9/IPFIX ExportPacket"]
            ∧ attempted l2 = Some p) as [Heff Hatt].
    { iterate_paths Hr Hs Hi Hstep; try congruence; try done.
      match goal with H : timed_out _ _ = false |- _ =>
        apply timed_out_false in H end. done. }
    assert (gone p s2) as Hg.
    { eapply let_go_step; [exact Hwf1|exact Hstep|exact Hatt|].
      unfold buffered. rewrite Heff. congruence. }
    split_and!; try done.
    + intros Hin. destruct Hg as [Hg _]. apply Hg, elem_of_oids. set_solver.
    + intros Hin. destruct Hg as [Hg _]. apply Hg, elem_of_oids. set_solver.
    + intros evs'. by destruct (gone_exec _ evs' _ Hwf2 Hg).
Qed.


(** ** The claim about [get] *)

(** Every look at the output queue leaves the listener as a
    non-blocking [get] does, and yields the oldest packet when there is
    one. *)
Lemma poll_spec s now wait :
  (poll s now wait).1 = (step parse_packet s Get).1
  ∧ (∀ pp rest, output s = pp :: rest → (poll s now wait).2 = Got pp)
  ∧ (output s = [] →
     (poll s now wait).2
     = match wait with
       | None => Failed "queue.Empty"
       | Some None => Suspended None
       | Some (Some endtime) =>
           if Qle_bool endtime now then Failed "queue.Empty"
           else Suspended (Some endtime)
       end).
Proof.
  unfold poll. cbn [step]. destruct (output s) as [|pp rest].
  - split_and!; [|done|].
    + by destruct wait as [[endtime|]|]; [destruct (Qle_bool endtime now)| |].
    + intros _.
      by destruct wait as [[endtime|]|]; [destruct (Qle_bool endtime now)| |].
  - split_and!; [done| |done]. by intros ? ? [= <- _].
Qed.

(** A suspended caller keeps its end time for as long as it waits. *)
Lemma pending_suspended s endtime acts s1 e :
  pending parse_packet s endtime acts = (s1, Suspended e) → e = endtime.
Proof.
  revert s. induction acts as [|[ev|now] acts IH]; intros s; cbn [pending].
  - by intros [= _ <-].
  - apply IH.
  - unfold poll. destruct (output s); [|done].
    destruct endtime as [endtime|]; [|apply IH].
    destruct (Qle_bool endtime now); [done|apply IH].
Qed.

Lemma pending_failed s endtime acts s1 exn :
  pending parse_packet s endtime acts = (s1, Failed exn) →
  exn = "queue.Empty" ∧ endtime ≠ None.
Proof.
  revert s. induction acts as [|[ev|now] acts IH]; intros s; cbn [pending].
  - done.
  - apply IH.
  - unfold poll. destruct (output s); [|done].
    destruct endtime as [endtime|]; [|apply IH].
    destruct (Qle_bool endtime now); [by intros [= _ <-]|apply IH].
Qed.

(** One more action after a call that is still suspended. *)
Lemma pending_wake s endtime acts s1 e now1 :
  pending parse_packet s endtime acts = (s1, Suspended e) →
  pending parse_packet s endtime (acts ++ [Wake now1])
  = poll s1 now1 (Some e).
Proof.
  revert s endtime.
  induction acts as [|[ev|now] acts IH]; intros s endtime; cbn [pending app].
  - intros [= <- <-]. by destruct (poll s now1 (Some endtime)) as [? [?|?|?]].
  - apply IH.
  - destruct (poll s now (Some endtime)) as [s' [pp|e'|exn]]; [done| |done].
    apply IH.
Qed.

(** C7. [get(block, timeout)], with [timeout] a non-negative number
    where it is used.  Every call that finds a packet returns the oldest
    one at once and removes it from the output queue.  On an empty
    queue: with [block] false the call raises [queue.Empty] at once,
    whatever the timeout, and is never suspended; with [block] true and
    no timeout the caller is suspended, never raises, and each time it
    runs again it returns the oldest packet if there is one and
    otherwise stays suspended; with [block] true and timeout [t] the
    caller is suspended until [now + t], raises nothing but
    [queue.Empty], and each time it runs again it returns the oldest
    packet if there is one, raises [queue.Empty] if there is none and
    [now + t] has been reached, and otherwise stays suspended. *)
Theorem get_blocks_until_packet_or_timeout s now t acts :
  (0 <= t)%Q →
  (* block false *)
  (∀ timeout,
     get_call parse_packet false timeout now s acts
     = ((step parse_packet s Get).1,
        match output s with
        | pp :: _ => Got pp
        | [] => Failed "queue.Empty"
        end))
  ∧ (result (step parse_packet s Get).2 = Raised "queue.Empty"
     ↔ output s = [])
  (* block true, no timeout *)
  ∧ get true None now s
    = ((step parse_packet s Get).1,
       match output s with
       | pp :: _ => Got pp
       | [] => Suspended None
       end)
  ∧ (∀ s1 exn,
       get_call parse_packet true None now s acts ≠ (s1, Failed exn))
  ∧ (∀ s1 e now1,
       get_call parse_packet true None now s acts = (s1, Suspended e) →
       e = None
       ∧ get_call parse_packet true None now s (acts ++ [Wake now1])
         = ((step parse_packet s1 Get).1,
            match output s1 with
            | pp :: _ => Got pp
            | [] => Suspended None
            end))
  (* block true, timeout t *)
  ∧ get true (Some t) now s
    = ((step parse_packet s Get).1,
       match output s with
       | pp :: _ => Got pp
       | [] => if Qle_bool t 0 then Failed "queue.Empty"
               else Suspended (Some (now + t)%Q)
       end)
  ∧ (∀ s1 exn,
       get_call parse_packet true (Some t) now s acts = (s1, Failed exn) →
       exn = "queue.Empty")
  ∧ (∀ s1 e now1,
       get_call parse_packet true (Some t) now s acts = (s1, Suspended e) →
       e = Some (now + t)%Q
       ∧ get_call parse_packet true (Some t) now s (acts ++ [Wake now1])
         = ((step parse_packet s1 Get).1,
            match output s1 with
            | pp :: _ => Got pp
            | [] => if Qle_bool (now + t) now1 then Failed "queue.Empty"
                    else Suspended (Some (now + t)%Q)
            end)).
Proof.
  intros Ht. apply Qle_bool_iff in Ht.
  assert (∀ s0 now0 wait,
            poll s0 now0 wait
            = ((step parse_packet s0 Get).1,
               match output s0 with
               | pp :: _ => Got pp
               | [] =>
                   match wait with
                   | None => Failed "queue.Empty"
                   | Some None => Suspended None
                   | Some (Some endtime) =>
                       if Qle_bool endtime now0 then Failed "queue.Empty"
                       else Suspended (Some endtime)
                   end
               end)) as Hpoll.
  { intros s0 now0 wait.
    destruct (poll_spec s0 now0 wait) as (Hst & Hsome & Hnone).
    destruct (poll s0 now0 wait) as [s' r]. cbn [fst snd] in *. subst s'.
    f_equal. destruct (output s0) as [|pp rest]; [by apply Hnone|].
    by eapply Hsome. }
  assert (Qle_bool (now + t) now = Qle_bool t 0) as Hend.
  { destruct (Qle_bool t 0) eqn:E.
    - apply Qle_bool_iff. apply Qle_bool_iff in E. lra.
    - destruct (Qle_bool (now + t) now) eqn:E'; [|done].
      apply Qle_bool_iff in E'. assert (t <= 0)%Q as E'' by lra.
      apply Qle_bool_iff in E''. congruence. }
  split_and!.
  - intros timeout. unfold get_call, get. rewrite Hpoll.
    by destruct (output s).
  - cbn [step]. by destruct (output s).
  - unfold get. by rewrite Hpoll.
  - intros s1 exn. unfold get_call, get. rewrite Hpoll.
    destruct (output s); [|done].
    intros H. by destruct (pending_failed _ _ _ _ _ H).
  - intros s1 e now1. unfold get_call, get. rewrite !Hpoll.
    destruct (output s); [|done].
    intros H. pose proof (pending_suspended _ _ _ _ _ H) as ->.
    split; [done|].
    by rewrite (pending_wake _ _ _ _ _ now1 H), Hpoll.
  - unfold get. by rewrite Ht, Hpoll, Hend.
  - intros s1 exn. unfold get_call, get. rewrite Ht, Hpoll, Hend.
    destruct (output s); [|by intros [= _ <-]].
    destruct (Qle_bool t 0); [by intros [= _ <-]|].
    intros H. by destruct (pending_failed _ _ _ _ _ H).
  - intros s1 e now1. unfold get_call, get. rewrite Ht, !Hpoll, Hend.
    destruct (output s); [|done].
    destruct (Qle_bool t 0); [done|].
    intros H. pose proof (pending_suspended _ _ _ _ _ H) as ->.
    split; [done|].
    by rewrite (pending_wake _ _ _ _ _ now1 H), Hpoll.
Qed.

End Correctness.
(** * The loop on concrete datagrams *)

(** The end-to-end scenario: a data record for an unknown template is
    held; the template record arrives, is emitted, and the held record
    is decoded after it; a datagram of version 99 is dropped; a v5
    export passes. *)
Example end_to_end :
  output_puts
    (concat (map effects
       (exec toy_parse_packet init
          (Demo.template_decoded 2
             ++ [Handle 4 Demo.sender Demo.v99; Handle 5 Demo.sender Demo.v5;
                 Iterate 6; Iterate 7; Iterate 8])).2))
  = [parsed (Demo.second 2 Demo.template7)
       {| header := Header.mk 9 1 3; contains_new_templates := true; flows := [] |};
     parsed (Demo.first 0 Demo.data7)
       {| header := Header.mk 9 1 3; contains_new_templates := false; flows := [] |};
     parsed (Queued 3 (RawPacket.mk 5 Demo.sender Demo.v5))
       {| header := Header.mk 5 1 1; contains_new_templates := false; flows := [] |}].
Proof. vm_compute. reflexivity. Qed.

(** A young template miss is appended to [to_retry]. *)
Lemma template_miss_age_gate_witness :
  run_state (exec toy_parse_packet init Demo.data_queued).1 = Running
  ∧ _shutdown (exec toy_parse_packet init Demo.data_queued).1 = false
  ∧ input (exec toy_parse_packet init Demo.data_queued).1
    = [Demo.first 0 Demo.data7]
  ∧ toy_parse_packet Demo.data7
      (templates (exec toy_parse_packet init Demo.data_queued).1)
    = (RaisedTemplateNotRecognized, no_templates)
  ∧ to_retry (exec toy_parse_packet init Demo.data_held).1
    = to_retry (exec toy_parse_packet init Demo.data_queued).1
        ++ [Demo.first 0 Demo.data7]
  ∧ output_puts (effects (step toy_parse_packet
                   (exec toy_parse_packet init Demo.data_queued).1
                   (Iterate 1)).2) = [].
Proof.
  destruct (template_miss_age_gate toy_parse_packet
              (exec toy_parse_packet init Demo.data_queued).1 1
              (Demo.first 0 Demo.data7) [] no_templates
              (exec toy_parse_packet init Demo.data_held).1
              (step toy_parse_packet
                 (exec toy_parse_packet init Demo.data_queued).1 (Iterate 1)).2
              eq_refl eq_refl eq_refl eq_refl eq_refl)
    as (_ & _ & _ & Hyoung & Hout & _).
  do 4 (split; [reflexivity|]). split.
  - apply Hyoung. intros H. vm_compute in H. discriminate.
  - exact Hout.
Defined.

(** The template record is decoded while the data record is held: the
    held record goes back on the input queue. *)
Lemma retry_buffer_reinjection_witness :
  run_state (exec toy_parse_packet init (Demo.template_queued 2)).1 = Running
  ∧ _shutdown (exec toy_parse_packet init (Demo.template_queued 2)).1 = false
  ∧ input (exec toy_parse_packet init (Demo.template_queued 2)).1
    = [Demo.second 2 Demo.template7]
  ∧ to_retry (exec toy_parse_packet init (Demo.template_queued 2)).1
    = [Demo.first 0 Demo.data7]
  ∧ input_puts (effects (step toy_parse_packet
                  (exec toy_parse_packet init (Demo.template_queued 2)).1
                  (Iterate 3)).2)
    = to_retry (exec toy_parse_packet init (Demo.template_queued 2)).1
  ∧ input (exec toy_parse_packet init (Demo.template_decoded 2)).1
    = [] ++ to_retry (exec toy_parse_packet init (Demo.template_queued 2)).1
  ∧ to_retry (exec toy_parse_packet init (Demo.template_decoded 2)).1 = [].
Proof.
  destruct (retry_buffer_reinjection toy_parse_packet
              (exec toy_parse_packet init (Demo.template_queued 2)).1 3
              (Demo.second 2 Demo.template7) []
              {| header := Header.mk 9 1 3; contains_new_templates := true;
                 flows := [] |}
              {| netflow := <[7 := []]> ∅; ipfix := ∅ |}
              (exec toy_parse_packet init (Demo.template_decoded 2)).1
              (step toy_parse_packet
                 (exec toy_parse_packet init (Demo.template_queued 2)).1
                 (Iterate 3)).2
              eq_refl eq_refl eq_refl eq_refl eq_refl)
    as [Hyes _].
  do 4 (split; [reflexivity|]).
  apply Hyes. split; [by left|]. split; [reflexivity|]. discriminate.
Defined.

(** The held record is decoded at time 5000, long after the timeout, and
    is emitted with its own time stamp and sender. *)
Lemma decoded_packet_is_emitted_witness :
  run_state (exec toy_parse_packet init (Demo.template_decoded 2)).1 = Running
  ∧ _shutdown (exec toy_parse_packet init (Demo.template_decoded 2)).1 = false
  ∧ input (exec toy_parse_packet init (Demo.template_decoded 2)).1
    = [Demo.first 0 Demo.data7]
  ∧ (PACKET_TIMEOUT < 5000 - RawPacket.ts (pkt (Demo.first 0 Demo.data7)))%Q
  ∧ output_puts (effects (step toy_parse_packet
                   (exec toy_parse_packet init (Demo.template_decoded 2)).1
                   (Iterate 5000)).2)
    = [ParsedPacket.mk 0 Demo.sender
         {| header := Header.mk 9 1 3; contains_new_templates := false;
            flows := [] |}].
Proof.
  do 3 (split; [reflexivity|]). split; [reflexivity|].
  apply (decoded_packet_is_emitted toy_parse_packet
           (exec toy_parse_packet init (Demo.template_decoded 2)).1 5000
           (Demo.first 0 Demo.data7) []
           {| header := Header.mk 9 1 3; contains_new_templates := false;
              flows := [] |}
           {| netflow := <[7 := []]> ∅; ipfix := ∅ |}
           (step toy_parse_packet
              (exec toy_parse_packet init (Demo.template_decoded 2)).1
              (Iterate 5000)).1
           (step toy_parse_packet
              (exec toy_parse_packet init (Demo.template_decoded 2)).1
              (Iterate 5000)).2
           eq_refl eq_refl eq_refl eq_refl eq_refl).
Defined.

(** C1, counterexample: an empty datagram makes the stand-in decoder raise
    another exception; no logger call is made and the thread dies instead
    of going on. *)
Lemma other_exception_counterexample :
  ¬ (∀ (parse_packet : decoder) s now p rest exn tpl',
       run_state s = Running → _shutdown s = false → input s = p :: rest →
       parse_packet (RawPacket.data (pkt p)) (templates s)
         = (RaisedOther exn, tpl') →
       log_calls (effects (step parse_packet s (Iterate now)).2) ≠ []
       ∧ run_state (step parse_packet s (Iterate now)).1 = Running).
Proof.
  intros H.
  destruct (H toy_parse_packet
              (exec toy_parse_packet init Demo.empty_then_v5).1 2%Q
              (Demo.first 0 Demo.empty) [Demo.second 1 Demo.v5]
              "struct.error" no_templates eq_refl eq_refl eq_refl eq_refl)
    as [_ Hrun].
  vm_compute in Hrun. discriminate.
Qed.

(** The empty datagram kills the loop; the v5 export behind it stays on
    the input queue however many iterations are scheduled. *)
Lemma other_exception_ends_the_loop_witness :
  run_state (exec toy_parse_packet init Demo.empty_then_v5).1 = Running
  ∧ _shutdown (exec toy_parse_packet init Demo.empty_then_v5).1 = false
  ∧ input (exec toy_parse_packet init Demo.empty_then_v5).1
    = [Demo.first 0 Demo.empty; Demo.second 1 Demo.v5]
  ∧ run_state (step toy_parse_packet
                 (exec toy_parse_packet init Demo.empty_then_v5).1
                 (Iterate 2)).1 = Died "struct.error"
  ∧ input (exec toy_parse_packet
             (step toy_parse_packet
                (exec toy_parse_packet init Demo.empty_then_v5).1
                (Iterate 2)).1 [Iterate 3; Iterate 4]).1
    = [Demo.second 1 Demo.v5].
Proof.
  destruct (other_exception_ends_the_loop toy_parse_packet
              (exec toy_parse_packet init Demo.empty_then_v5).1 2
              (Demo.first 0 Demo.empty) [Demo.second 1 Demo.v5]
              "struct.error" no_templates
              (step toy_parse_packet
                 (exec toy_parse_packet init Demo.empty_then_v5).1
                 (Iterate 2)).1
              (step toy_parse_packet
                 (exec toy_parse_packet init Demo.empty_then_v5).1
                 (Iterate 2)).2
              eq_refl eq_refl eq_refl eq_refl eq_refl)
    as (_ & _ & _ & _ & _ & _ & Hdied & _ & Hever).
  do 3 (split; [reflexivity|]). split; [exact Hdied|].
  exact (proj1 (proj2 (Hever [Iterate 3; Iterate 4]))).
Defined.

(** A datagram of version 99 is dropped and the v5 export behind it is
    taken next. *)
Lemma unknown_version_is_discarded_witness :
  reachable toy_parse_packet (exec toy_parse_packet init Demo.v99_then_v5).1
  ∧ run_state (exec toy_parse_packet init Demo.v99_then_v5).1 = Running
  ∧ _shutdown (exec toy_parse_packet init Demo.v99_then_v5).1 = false
  ∧ input (exec toy_parse_packet init Demo.v99_then_v5).1
    = [Demo.first 0 Demo.v99; Demo.second 1 Demo.v5]
  ∧ effects (step toy_parse_packet
               (exec toy_parse_packet init Demo.v99_then_v5).1 (Iterate 2)).2
    = [Log ERROR "%s, ignoring the packet"]
  ∧ attempted (step toy_parse_packet
                 (step toy_parse_packet
                    (exec toy_parse_packet init Demo.v99_then_v5).1
                    (Iterate 2)).1 (Iterate 3)).2
    = Some (Demo.second 1 Demo.v5).
Proof.
  assert (reachable toy_parse_packet
            (exec toy_parse_packet init Demo.v99_then_v5).1) as Hreach.
  { by exists Demo.v99_then_v5. }
  destruct (unknown_version_is_discarded toy_parse_packet
              (exec toy_parse_packet init Demo.v99_then_v5).1 2
              (Demo.first 0 Demo.v99) [Demo.second 1 Demo.v5] no_templates
              (step toy_parse_packet
                 (exec toy_parse_packet init Demo.v99_then_v5).1 (Iterate 2)).1
              (step toy_parse_packet
                 (exec toy_parse_packet init Demo.v99_then_v5).1 (Iterate 2)).2
              Hreach eq_refl eq_refl eq_refl eq_refl eq_refl)
    as (Heff & _ & _ & _ & _ & _ & _ & Hnext & _).
  split; [exact Hreach|]. do 3 (split; [reflexivity|]).
  split; [exact Heff|].
  exact (Hnext 3%Q (Demo.second 1 Demo.v5) [] eq_refl).
Defined.

(** After [stop], the next iteration leaves the loop and closes the
    server; the queued v5 export is never taken. *)
Lemma shutdown_observed_and_idempotent_witness :
  run_state (exec toy_parse_packet init Demo.stopped).1 = Running
  ∧ _shutdown (exec toy_parse_packet init Demo.stopped).1 = true
  ∧ effects (step toy_parse_packet
               (exec toy_parse_packet init Demo.stopped).1 (Iterate 1)).2
    = [ServerShutdown; ServerClose]
  ∧ input (step toy_parse_packet
             (exec toy_parse_packet init Demo.stopped).1 (Iterate 1)).1
    = input (exec toy_parse_packet init Demo.stopped).1
  ∧ run_state (step toy_parse_packet
                 (exec toy_parse_packet init Demo.stopped).1 (Iterate 1)).1
    = Exited.
Proof.
  destruct (shutdown_observed_and_idempotent toy_parse_packet
              (exec toy_parse_packet init Demo.stopped).1 1
              (step toy_parse_packet
                 (exec toy_parse_packet init Demo.stopped).1 (Iterate 1)).1
              (step toy_parse_packet
                 (exec toy_parse_packet init Demo.stopped).1 (Iterate 1)).2
              eq_refl eq_refl eq_refl)
    as ((_ & Heff & Hin & _ & _ & Hexit & _) & _).
  do 2 (split; [reflexivity|]). by split_and!.
Defined.


(** C5, counterexample: the data record is held since time 0; the
    template arrives at time 3999 and is decoded at time 4000, when the
    held record is older than [PACKET_TIMEOUT]; the record is then
    decoded at time 4001 and emitted, not dropped. *)
Lemma stale_entry_counterexample :
  ¬ (∀ (parse_packet : decoder) evs0 now evs p,
       p ∈ to_retry (exec parse_packet init evs0).1 →
       (PACKET_TIMEOUT < now - RawPacket.ts (pkt p))%Q →
       retry_pass (step parse_packet (exec parse_packet init evs0).1
                     (Iterate now)).2 →
       ∀ l, l ∈ (exec parse_packet (exec parse_packet init evs0).1
                   (Iterate now :: evs)).2 → ¬ emits l p).
Proof.
  intros H.
  apply (H toy_parse_packet (Demo.template_queued 3999) 4000%Q
           [Iterate 4001] (Demo.first 0 Demo.data7))
    with (l := (step toy_parse_packet
                  (exec toy_parse_packet init (Demo.template_decoded 3999)).1
                  (Iterate 4001)).2).
  - change (Demo.first 0 Demo.data7 ∈ [Demo.first 0 Demo.data7]).
    apply elem_of_cons. by left.
  - reflexivity.
  - split; [by eexists|]. vm_compute. discriminate.
  - change (exec toy_parse_packet
              (exec toy_parse_packet init (Demo.template_queued 3999)).1
              [Iterate 4000; Iterate 4001]).2
      with [(step toy_parse_packet
               (exec toy_parse_packet init (Demo.template_queued 3999)).1
               (Iterate 4000)).2;
            (step toy_parse_packet
               (exec toy_parse_packet init (Demo.template_decoded 3999)).1
               (Iterate 4001)).2].
    apply elem_of_cons. right. apply elem_of_cons. by left.
  - split; [reflexivity|]. vm_compute. discriminate.
Qed.

(** With no retry pass the held record stays in [to_retry], also when the
    loop idles at time 100000. *)
Lemma stale_entry_dropped_only_on_failed_retry_witness :
  Demo.first 0 Demo.data7 ∈ to_retry (exec toy_parse_packet init Demo.data_held).1
  ∧ (∀ evs,
       (∀ l, l ∈ (exec toy_parse_packet
                    (exec toy_parse_packet init Demo.data_held).1 evs).2 →
             ¬ retry_pass l) →
       Demo.first 0 Demo.data7
         ∈ to_retry (exec toy_parse_packet
                       (exec toy_parse_packet init Demo.data_held).1 evs).1
       ∧ ∀ l, l ∈ (exec toy_parse_packet
                      (exec toy_parse_packet init Demo.data_held).1 evs).2 →
              attempted l ≠ Some (Demo.first 0 Demo.data7)).
Proof.
  assert (Demo.first 0 Demo.data7
            ∈ to_retry (exec toy_parse_packet init Demo.data_held).1) as Hheld.
  { change (Demo.first 0 Demo.data7 ∈ [Demo.first 0 Demo.data7]).
    apply elem_of_cons. by left. }
  split; [exact Hheld|].
  exact (proj1 (stale_entry_dropped_only_on_failed_retry toy_parse_packet
                  Demo.data_held (Demo.first 0 Demo.data7) Hheld)).
Defined.



(** A caller that waits at most two seconds is suspended on the empty
    queue; the loop decodes a v5 export meanwhile, and the caller gets
    it when it runs again. *)
Lemma get_blocks_until_packet_or_timeout_witness :
  (0 <= 2)%Q
  ∧ get_call toy_parse_packet true (Some 2%Q) 0
      (exec toy_parse_packet init [Start]).1
      ([Sys (Handle 0 Demo.sender Demo.v5); Sys (Iterate 1)] ++ [Wake 1])
    = ((exec toy_parse_packet init
          [Start; Handle 0 Demo.sender Demo.v5; Iterate 1; Get]).1,
       Got (ParsedPacket.mk 0 Demo.sender
              {| header := Header.mk 5 1 1; contains_new_templates := false;
                 flows := [] |})).
Proof.
  assert ((0 <= 2)%Q) as Ht by (unfold Qle; simpl; lia).
  split; [exact Ht|].
  destruct (get_blocks_until_packet_or_timeout toy_parse_packet
              (exec toy_parse_packet init [Start]).1 0 2
              [Sys (Handle 0 Demo.sender Demo.v5); Sys (Iterate 1)] Ht)
    as (_ & _ & _ & _ & _ & _ & _ & Hwake).
  exact (proj2 (Hwake
                  (exec toy_parse_packet init
                     [Start; Handle 0 Demo.sender Demo.v5; Iterate 1]).1
                  (Some (0 + 2)%Q) 1%Q eq_refl)).
Defined.

(** * Further properties of the collector *)

Section Accounting.

Variable parse_packet : decoder.

Lemma wf_after s ev s' l :
  wf s → step parse_packet s ev = (s', l) → wf s'.
Proof.
  intros Hwf Hstep.
  replace s' with (step parse_packet s ev).1 by by rewrite Hstep.
  by apply wf_step.
Qed.

Lemma handled_cons l ls :
  handled (l :: ls)
  = match attempted l with
    | None => input_puts (effects l)
    | Some _ => []
    end ++ handled ls.
Proof. done. Qed.

Lemma taken_cons l ls :
  taken (l :: ls)
  = match attempted l with
    | None => taken ls
    | Some p => p :: taken ls
    end.
Proof. done. Qed.

Lemma emitted_cons l ls :
  emitted (l :: ls) = output_puts (effects l) ++ emitted ls.
Proof. done. Qed.

Lemma handle_effects s now c d s' l :
  step parse_packet s (Handle now c d) = (s', l) →
  input s' = input s ++ [Queued (next_oid s) (RawPacket.mk now c d)] →
  effects l = [InputPut (Queued (next_oid s) (RawPacket.mk now c d));
               Log DEBUG "Received %d bytes of data from %s"].
Proof.
  simpl. destruct (serving s); intros [= <- <-]; [done|].
  intros Heq. apply (f_equal List.length) in Heq.
  rewrite length_app in Heq. simpl in Heq. lia.
Qed.

(** ** The request handler *)

(** X1. Datagrams handled one after the other while the server is open
    are appended to the input queue in that order, each with its time
    stamp, sender and payload; the handler touches nothing else. *)
Theorem handle_keeps_arrival_order s ds :
  serving s = true →
  pkt <$> input (exec parse_packet s (handle_all ds)).1
    = (pkt <$> input s) ++ (raw <$> ds)
  ∧ output (exec parse_packet s (handle_all ds)).1 = output s
  ∧ to_retry (exec parse_packet s (handle_all ds)).1 = to_retry s
  ∧ templates (exec parse_packet s (handle_all ds)).1 = templates s
  ∧ run_state (exec parse_packet s (handle_all ds)).1 = run_state s
  ∧ _shutdown (exec parse_packet s (handle_all ds)).1 = _shutdown s
  ∧ taken (exec parse_packet s (handle_all ds)).2 = [].
Proof.
  revert s. induction ds as [|[[now c] d] ds IH]; intros s Hsv.
  { simpl. by rewrite app_nil_r. }
  change (handle_all ((now, c, d) :: ds))
    with (Handle now c d :: handle_all ds).
  rewrite exec_cons. cbn [fst snd].
  assert (step parse_packet s (Handle now c d)
          = ({| input := input s ++ [Queued (next_oid s) (RawPacket.mk now c d)];
                output := output s; serving := serving s;
                _shutdown := _shutdown s; run_state := run_state s;
                templates := templates s; to_retry := to_retry s;
                next_oid := S (next_oid s) |},
             {| attempted := None;
                effects := [InputPut (Queued (next_oid s) (RawPacket.mk now c d));
                            Log DEBUG "Received %d bytes of data from %s"];
                result := Done |})) as ->.
  { simpl. by rewrite Hsv. }
  cbn [fst snd].
  match goal with |- context [exec parse_packet ?s1 (handle_all ds)] =>
    destruct (IH s1 Hsv) as (Hi & Ho & Ht & Htp & Hr & Hs & Htk)
  end.
  rewrite Hi, Ho, Ht, Htp, Hr, Hs. cbn [input output to_retry templates
    run_state _shutdown]. split_and!; try done.
  rewrite fmap_app, <- app_assoc. done.
Qed.

(** ** Order and accounting *)

Lemma taken_emits_origin s ev s' l :
  wf s → step parse_packet s ev = (s', l) →
  match attempted l with
  | None => output_puts (effects l) = []
  | Some p =>
      output_puts (effects l) = []
      ∨ ∃ export, output_puts (effects l) = [parsed p export]
  end.
Proof.
  intros Hwf Hstep.
  destruct (step_cases parse_packet _ _ _ _ Hwf Hstep)
    as [(now & c & d & -> & Hi & Ht & Hn & -> & _)
       |[(now & p & rest & -> & Hr & Hs & Hi & HP)
        |(Hi & Ht & Hn & -> & _ & Ho & _)]]; [|destruct HP|done].
  - simpl in Hstep. destruct (serving s); by injection Hstep as <- <-.
  - by left.
  - by left.
  - by left.
  - by left.
  - right. exists export. cbn [attempted effects]. apply output_puts_retry.
  - right. exists export. cbn [attempted effects].
    by destruct (puts_plain export (parsed p export)) as [_ ->].
Qed.

(** While no packet waits for a template, the input queue is a plain
    FIFO between the handler and the loop. *)
Lemma fifo_invariant s evs :
  wf s → to_retry s = [] →
  (∀ l, l ∈ (exec parse_packet s evs).2 →
        is_Some (attempted l) → output_puts (effects l) ≠ []) →
  taken (exec parse_packet s evs).2 ++ input (exec parse_packet s evs).1
    = input s ++ handled (exec parse_packet s evs).2
  ∧ to_retry (exec parse_packet s evs).1 = []
  ∧ origin_parsed <$> emitted (exec parse_packet s evs).2
    = origin_raw <$> taken (exec parse_packet s evs).2.
Proof.
  revert s. induction evs as [|ev evs IH]; intros s Hwf Hnil Hall.
  { simpl. by rewrite app_nil_r. }
  rewrite exec_cons in Hall |- *. cbn [fst snd] in Hall |- *.
  destruct (step parse_packet s ev) as [s1 l1] eqn:Hstep. cbn [fst snd] in *.
  pose proof (wf_after _ _ _ _ Hwf Hstep) as Hwf1.
  assert (∀ l, l ∈ (exec parse_packet s1 evs).2 →
               is_Some (attempted l) → output_puts (effects l) ≠ []) as Hall1.
  { intros l Hl. apply Hall, elem_of_cons. by right. }
  assert (is_Some (attempted l1) → output_puts (effects l1) ≠ []) as Hl1.
  { apply Hall, elem_of_cons. by left. }
  rewrite handled_cons, emitted_cons, taken_cons.
  destruct (step_cases parse_packet _ _ _ _ Hwf Hstep)
    as [(now & c & d & -> & Hi & Ht & Hn & Ha & _)
       |[(now & p & rest & -> & Hr & Hs & Hi & HP)
        |(Hi & Ht & Hn & Ha & Hip & Hop & _)]].
  - destruct (IH s1 Hwf1) as (Hq & Hr & Ho); [congruence|done|].
    rewrite Ha, (handle_effects _ _ _ _ _ _ Hstep Hi). simpl.
    rewrite Hi in Hq. rewrite <- app_assoc in Hq. by split_and!.
  - assert (to_retry s1 = [] ∧ input s1 = rest ∧ attempted l1 = Some p
            ∧ ∃ export, output_puts (effects l1) = [parsed p export])
      as (Ht1 & Hi1 & Ha1 & export & Ho1).
    { destruct HP; cbn [to_retry input attempted effects] in *;
        try (exfalso; by apply Hl1).
      split_and!; try done. exists export.
      by destruct (puts_plain export (parsed p export)) as [_ ->]. }
    destruct (IH s1 Hwf1 Ht1 Hall1) as (Hq & Hr1 & Ho).
    rewrite Ha1, Ho1, Hi. rewrite Hi1 in Hq.
    split_and!; [simpl; by rewrite Hq|done|].
    rewrite fmap_app, !fmap_cons, Ho. done.
  - destruct (IH s1 Hwf1) as (Hq & Hr & Ho); [congruence|done|].
    rewrite Ha, Hip, Hop. simpl. rewrite Hi in Hq. by split_and!.
Qed.

(** X2. In a schedule in which every packet the loop takes is decoded,
    nothing is held back: the packets emitted, followed by those still
    on the input queue, are the datagrams handled, in arrival order and
    with their time stamps and senders. *)
Theorem in_order_delivery evs :
  (∀ l, l ∈ (exec parse_packet init evs).2 →
        is_Some (attempted l) → output_puts (effects l) ≠ []) →
  (origin_parsed <$> emitted (exec parse_packet init evs).2)
    ++ (origin_raw <$> input (exec parse_packet init evs).1)
  = origin_raw <$> handled (exec parse_packet init evs).2
  ∧ to_retry (exec parse_packet init evs).1 = [].
Proof.
  intros Hall.
  destruct (fifo_invariant init evs wf_init eq_refl Hall) as (Hq & Ht & Ho).
  split; [|done]. rewrite Ho, <- fmap_app, Hq. done.
Qed.

Lemma is_buffered_spec l : is_buffered l = true ↔ buffered l.
Proof.
  unfold is_buffered, buffered.
  destruct (effects l) as [|[[| | |] m| | | |] [|e effs]]; simpl;
    try (split; [done|intros [=]]).
  rewrite String.eqb_eq. split; [by intros ->|by intros [= ->]].
Qed.

Lemma released_cons l ls :
  released (l :: ls)
  = match (if is_buffered l then None else attempted l) with
    | None => released ls
    | Some p => p :: released ls
    end.
Proof. done. Qed.

(** Every handled object is in exactly one place: on the input queue, in
    [to_retry], or released by the loop. *)
Lemma conservation_invariant s evs :
  wf s →
  input s ++ to_retry s ++ handled (exec parse_packet s evs).2
  ≡ₚ input (exec parse_packet s evs).1
     ++ to_retry (exec parse_packet s evs).1
     ++ released (exec parse_packet s evs).2.
Proof.
  revert s. induction evs as [|ev evs IH]; intros s Hwf.
  { done. }
  rewrite exec_cons. cbn [fst snd].
  destruct (step parse_packet s ev) as [s1 l1] eqn:Hstep. cbn [fst snd].
  pose proof (wf_after _ _ _ _ Hwf Hstep) as Hwf1.
  pose proof (IH s1 Hwf1) as HIH. clear IH.
  rewrite handled_cons, released_cons.
  set (I := input (exec parse_packet s1 evs).1) in *.
  set (T := to_retry (exec parse_packet s1 evs).1) in *.
  set (R := released (exec parse_packet s1 evs).2) in *.
  set (H := handled (exec parse_packet s1 evs).2) in *.
  clearbody I T R H.
  destruct (step_cases parse_packet _ _ _ _ Hwf Hstep)
    as [(now & c & d & -> & Hi & Ht & Hn & Ha & _)
       |[(now & p & rest & -> & Hr & Hs & Hi & HP)
        |(Hi & Ht & Hn & Ha & Hip & Hop & _)]].
  - rewrite Ha, (handle_effects _ _ _ _ _ _ Hstep Hi).
    replace (if is_buffered l1 then None else None) with (@None queued)
      by by destruct (is_buffered l1).
    rewrite <- HIH, Hi, Ht. simpl. rewrite <- !app_assoc. simpl.
    by rewrite (Permutation_middle (to_retry s)).
  - rewrite Hi. clear Hstep Hwf1.
    destruct HP; cbn [input to_retry attempted] in *.
    + change (is_buffered _) with false. cbn iota.
      rewrite <- !Permutation_middle, <- HIH. done.
    + change (is_buffered _) with false. cbn iota.
      rewrite <- !Permutation_middle, <- HIH. done.
    + change (is_buffered _) with true. cbn iota.
      rewrite <- HIH. simpl. rewrite <- !app_assoc. simpl.
      by rewrite !Permutation_middle.
    + change (is_buffered _) with false. cbn iota.
      rewrite <- !Permutation_middle, <- HIH. done.
    + match goal with |- context [is_buffered ?l] =>
        assert (is_buffered l = false) as ->
      end.
      { unfold is_buffered. cbn [effects].
        by destruct (processed_log export) as [m ->]. }
      rewrite <- !Permutation_middle, <- HIH. simpl.
      by rewrite <- !app_assoc.
    + match goal with |- context [is_buffered ?l] =>
        assert (is_buffered l = false) as ->
      end.
      { unfold is_buffered. cbn [effects].
        by destruct (processed_log export) as [m ->]. }
      rewrite <- !Permutation_middle, <- HIH. done.
  - rewrite Ha, Hip.
    replace (if is_buffered l1 then None else None) with (@None queued)
      by by destruct (is_buffered l1).
    rewrite <- HIH, Hi, Ht. done.
Qed.

(** X3. No datagram is lost or duplicated inside the collector: the
    objects the handler queued are, up to order, those on the input
    queue, those held in [to_retry] and those the loop has released
    (emitted, dropped, or taken by the decode that ended the loop). *)
Theorem every_packet_accounted_for evs :
  handled (exec parse_packet init evs).2
  ≡ₚ input (exec parse_packet init evs).1
     ++ to_retry (exec parse_packet init evs).1
     ++ released (exec parse_packet init evs).2.
Proof. exact (conservation_invariant init evs wf_init). Qed.

(** ** The retry buffer, the server and the template store *)



Lemma run_body_leaves_server now p tpl retry :
  ServerClose ∉ (run_body parse_packet now p tpl retry).1.1.1.
Proof.
  unfold run_body.
  destruct (parse_packet (RawPacket.data (pkt p)) tpl) as [[export| | |exn] tpl'].
  - destruct (_ && _ && _); cbn [fst];
      destruct (processed_log export) as [m ->];
      rewrite ?elem_of_app, ?elem_of_cons, ?elem_of_nil, ?list_elem_of_fmap;
      intros H; repeat (destruct H as [H|H]; try discriminate H); try done.
    destruct H as (? & H & ?). discriminate H.
  - cbn [fst]. rewrite ?elem_of_cons, ?elem_of_nil. by intros [[=]|[]].
  - destruct (timed_out _ _); cbn [fst];
      rewrite ?elem_of_cons, ?elem_of_nil; by intros [[=]|[]].
  - cbn [fst]. rewrite elem_of_nil. tauto.
Qed.

(** The [finally] clause is what closes the server, and only it. *)
Lemma server_step s ev :
  (serving s = true ↔ run_state s = Initial ∨ run_state s = Running) →
  (serving (step parse_packet s ev).1 = true
   ↔ run_state (step parse_packet s ev).1 = Initial
     ∨ run_state (step parse_packet s ev).1 = Running)
  ∧ (ServerClose ∈ effects (step parse_packet s ev).2
     ↔ serving s = true ∧ serving (step parse_packet s ev).1 = false)
  ∧ (serving s = false → serving (step parse_packet s ev).1 = false).
Proof.
  destruct s as [inp out srv sh rs tpl retry nxt]. cbn [serving run_state].
  intros Hinv.
  destruct ev as [now c d| |now| |timeout|]; simpl.
  - destruct srv; cbn [fst snd serving run_state effects];
      rewrite ?elem_of_cons, ?elem_of_nil; intuition congruence.
  - destruct rs; cbn [fst snd serving run_state effects]; rewrite ?elem_of_nil;
      intuition congruence.
  - destruct rs; cbn [fst snd serving run_state effects]; rewrite ?elem_of_nil;
      try (intuition congruence).
    destruct sh.
    { cbn [fst snd serving run_state effects]. unfold finally_clause.
      rewrite !elem_of_cons, elem_of_nil. intuition congruence. }
    destruct inp as [|p rest].
    { cbn [fst snd serving run_state effects]. rewrite elem_of_nil.
      intuition congruence. }
    pose proof (run_body_leaves_server now p tpl retry) as Hno.
    destruct (run_body parse_packet now p tpl retry)
      as [[[effs tpl'] retry'] [exn|]]; cbn [fst] in Hno;
      cbn [fst snd serving run_state effects].
    + unfold finally_clause. rewrite elem_of_app, !elem_of_cons, elem_of_nil.
      intuition congruence.
    + intuition congruence.
  - cbn [fst snd serving run_state effects]. rewrite list_elem_of_singleton.
    intuition congruence.
  - destruct timeout, srv, rs; cbn [fst snd serving run_state effects];
      rewrite ?elem_of_nil; intuition congruence.
  - destruct out; cbn [fst snd serving run_state effects]; rewrite ?elem_of_nil;
      intuition congruence.
Qed.

Lemma server_inv_exec s evs :
  (serving s = true ↔ run_state s = Initial ∨ run_state s = Running) →
  (serving (exec parse_packet s evs).1 = true
   ↔ run_state (exec parse_packet s evs).1 = Initial
     ∨ run_state (exec parse_packet s evs).1 = Running).
Proof.
  revert s. induction evs as [|ev evs IH]; intros s Hinv; [done|].
  rewrite exec_cons. cbn [fst]. apply IH. by apply server_step.
Qed.

Lemma closed_stays s evs :
  (serving s = true ↔ run_state s = Initial ∨ run_state s = Running) →
  serving s = false →
  serving (exec parse_packet s evs).1 = false
  ∧ ∀ l, l ∈ (exec parse_packet s evs).2 → ServerClose ∉ effects l.
Proof.
  revert s. induction evs as [|ev evs IH]; intros s Hinv Hsv.
  { split; [done|]. intros l Hl. by apply elem_of_nil in Hl. }
  rewrite exec_cons. cbn [fst snd].
  destruct (server_step s ev Hinv) as (Hinv1 & Hclose & Hmono).
  destruct (IH _ Hinv1 (Hmono Hsv)) as [Hfin Hno]. split; [done|].
  intros l Hl. apply elem_of_cons in Hl as [->|Hl]; [|by apply Hno].
  rewrite Hclose. intros [? _]. congruence.
Qed.

Lemma closed_once s evs i j li lj :
  (serving s = true ↔ run_state s = Initial ∨ run_state s = Running) →
  (exec parse_packet s evs).2 !! i = Some li →
  (exec parse_packet s evs).2 !! j = Some lj →
  ServerClose ∈ effects li → ServerClose ∈ effects lj → (i < j)%nat → False.
Proof.
  revert s i j. induction evs as [|ev evs IH]; intros s i j Hinv Hi Hj Hci Hcj Hlt.
  { done. }
  rewrite exec_cons in Hi, Hj. cbn [snd] in Hi, Hj.
  destruct (server_step s ev Hinv) as (Hinv1 & Hclose & Hmono).
  destruct j as [|j]; [lia|]. simpl in Hj.
  destruct i as [|i]; simpl in Hi.
  - injection Hi as <-. apply Hclose in Hci as [_ Hclosed].
    destruct (closed_stays _ evs Hinv1 Hclosed) as [_ Hno].
    apply (Hno lj); [by eapply list_elem_of_lookup_2|done].
  - apply (IH _ i j Hinv1 Hi Hj Hci Hcj). lia.
Qed.

Lemma closed_by_finally s evs :
  (serving s = true ↔ run_state s = Initial ∨ run_state s = Running) →
  serving s = true →
  (serving (exec parse_packet s evs).1 = false
   ↔ ∃ l, l ∈ (exec parse_packet s evs).2 ∧ ServerClose ∈ effects l).
Proof.
  revert s. induction evs as [|ev evs IH]; intros s Hinv Hsv.
  { simpl. split; [congruence|]. intros (l & Hl & _). by apply elem_of_nil in Hl. }
  rewrite exec_cons. cbn [fst snd].
  destruct (server_step s ev Hinv) as (Hinv1 & Hclose & Hmono).
  destruct (bool_dec (serving (step parse_packet s ev).1) true) as [Hsv1|Hsv1];
    [|apply not_true_is_false in Hsv1].
  - rewrite (IH _ Hinv1 Hsv1). split.
    + intros (l & Hl & Hc). exists l. split; [apply elem_of_cons; by right|done].
    + intros (l & Hl & Hc). apply elem_of_cons in Hl as [->|Hl]; [|by eauto].
      apply Hclose in Hc as [_ ?]. congruence.
  - destruct (closed_stays _ evs Hinv1 Hsv1) as [Hfin _]. split; [|done].
    intros _. exists (step parse_packet s ev).2.
    split; [apply elem_of_cons; by left|]. by apply Hclose.
Qed.

(** X5. The server is open exactly as long as the decode thread has not
    ended: it is closed if and only if the [finally] clause of [run] has
    run, and that clause runs at most once in any schedule. *)
Theorem server_closed_by_finally_once evs :
  (serving (exec parse_packet init evs).1 = true
   ↔ run_state (exec parse_packet init evs).1 = Initial
     ∨ run_state (exec parse_packet init evs).1 = Running)
  ∧ (serving (exec parse_packet init evs).1 = false
     ↔ ∃ l, l ∈ (exec parse_packet init evs).2 ∧ ServerClose ∈ effects l)
  ∧ (∀ i j li lj,
       (exec parse_packet init evs).2 !! i = Some li →
       (exec parse_packet init evs).2 !! j = Some lj →
       ServerClose ∈ effects li → ServerClose ∈ effects lj → i = j).
Proof.
  assert (serving init = true ↔ run_state init = Initial ∨ run_state init = Running)
    as Hinv by (split; eauto).
  split_and!.
  - by apply server_inv_exec.
  - by apply closed_by_finally.
  - intros i j li lj Hi Hj Hci Hcj.
    destruct (Nat.lt_trichotomy i j) as [Hlt|[->|Hlt]]; [|done|]; exfalso.
    + by eapply (closed_once init evs i j).
    + by eapply (closed_once init evs j i).
Qed.

Lemma templates_step s ev :
  (run_state s = Initial → templates s = no_templates) →
  templates (step parse_packet s ev).1
  = match attempted (step parse_packet s ev).2 with
    | Some p => (parse_packet (RawPacket.data (pkt p)) (templates s)).2
    | None => templates s
    end
  ∧ (run_state (step parse_packet s ev).1 = Initial →
     templates (step parse_packet s ev).1 = no_templates).
Proof.
  destruct s as [inp out srv sh rs tpl retry nxt]. cbn [run_state templates].
  intros Hinit.
  destruct ev as [now c d| |now| |timeout|]; simpl.
  - by destruct srv.
  - destruct rs; cbn [fst snd templates run_state attempted]; try done.
    split; [|done]. symmetry. by apply Hinit.
  - destruct rs; try done. destruct sh; [done|]. destruct inp as [|p rest]; [done|].
    unfold run_body.
    destruct (parse_packet (RawPacket.data (pkt p)) tpl)
      as [[export| | |exn] tpl'] eqn:E; cbn [fst snd];
      try destruct (_ && _ && _); try destruct (timed_out _ _);
      simpl; by rewrite ?E.
  - done.
  - by destruct timeout, srv, rs.
  - by destruct out.
Qed.

Lemma templates_exec s evs :
  (run_state s = Initial → templates s = no_templates) →
  templates (exec parse_packet s evs).1
  = templates_after parse_packet (templates s) (taken (exec parse_packet s evs).2).
Proof.
  revert s. induction evs as [|ev evs IH]; intros s Hinit; [done|].
  rewrite exec_cons. cbn [fst snd]. rewrite taken_cons.
  destruct (templates_step s ev Hinit) as [Ht Hinit1].
  rewrite (IH _ Hinit1), Ht.
  by destruct (attempted (step parse_packet s ev).2).
Qed.

(** X6. Only the decoder writes the template dictionaries: at any moment
    they are what the decoder made of the empty dictionaries when called
    on the packets the loop took, in that order, the calls that raised
    included. *)
Theorem templates_written_by_decoder_only evs :
  templates (exec parse_packet init evs).1
  = templates_after parse_packet no_templates
      (taken (exec parse_packet init evs).2).
Proof. by apply (templates_exec init evs). Qed.

(** ** The output queue *)

Lemma output_step s ev :
  ∃ consumed,
    output s ++ output_puts (effects (step parse_packet s ev).2)
    = consumed ++ output (step parse_packet s ev).1
    ∧ (List.length consumed
       ≤ if is_get ev then 1 else 0)%nat.
Proof.
  destruct s as [inp out srv sh rs tpl retry nxt]. cbn [output].
  destruct ev as [now c d| |now| |timeout|]; simpl.
  - exists []. destruct srv; simpl; by rewrite ?app_nil_r.
  - exists []. destruct rs; simpl; by rewrite ?app_nil_r.
  - exists []. destruct rs; simpl; rewrite ?app_nil_r; try done.
    destruct sh; simpl; rewrite ?app_nil_r; try done.
    destruct inp as [|p rest]; simpl; rewrite ?app_nil_r; try done.
    destruct (run_body _ _ _ _ _) as [[[effs tpl'] retry'] [exn|]]; simpl;
      [|done].
    split; [|done]. unfold output_puts. rewrite omap_app. simpl.
    by rewrite app_nil_r.
  - exists []. simpl. by rewrite app_nil_r.
  - exists []. destruct timeout, srv, rs; simpl; by rewrite ?app_nil_r.
  - destruct out as [|pp out]; simpl.
    + exists []. split; [done|simpl; lia].
    + exists [pp]. rewrite app_nil_r. split; [done|simpl; lia].
Qed.

Lemma output_exec s evs :
  ∃ consumed,
    output s ++ emitted (exec parse_packet s evs).2
    = consumed ++ output (exec parse_packet s evs).1
    ∧ (List.length consumed
       ≤ List.length (List.filter is_get evs))%nat.
Proof.
  revert s. induction evs as [|ev evs IH]; intros s.
  { exists []. simpl. by rewrite app_nil_r. }
  rewrite exec_cons. cbn [fst snd]. rewrite emitted_cons.
  destruct (output_step s ev) as (c1 & H1 & Hl1).
  destruct (IH (step parse_packet s ev).1) as (c2 & H2 & Hl2).
  exists (c1 ++ c2). split.
  - rewrite app_assoc, H1, <- !app_assoc, H2. done.
  - rewrite length_app. simpl. destruct (is_get ev); simpl in *; lia.
Qed.

(** X7. The output queue holds, in order, the emitted packets that no
    [get] has returned yet: what was emitted is what was consumed
    followed by what is queued, and each [get] consumes at most one
    packet, the oldest. *)
Theorem output_queue_is_fifo evs :
  ∃ consumed,
    emitted (exec parse_packet init evs).2
    = consumed ++ output (exec parse_packet init evs).1
    ∧ (List.length consumed
       ≤ List.length (List.filter is_get evs))%nat.
Proof. exact (output_exec init evs). Qed.

End Accounting.

(** * The socket family and the helpers of the consumer script *)

(** X8. The listener opens an IPv6 socket exactly when its host string
    contains a colon, wherever the colon stands. *)
Theorem family_is_inet6_iff_colon host port :
  listener_family (host, port) = AF_INET6
  ↔ ∃ a b, host = String.append a (String ":" b).
Proof.
  unfold listener_family, has_colon. cbn [fst].
  assert (existsb (Ascii.eqb ":") (list_ascii_of_string host) = true
          ↔ ∃ a b, host = String.append a (String ":" b)) as Hiff.
  { induction host as [|c host IH]; cbn [list_ascii_of_string existsb].
    - split; [done|]. intros (a & b & H).
      destruct a; cbv [String.append] in H; done.
    - rewrite orb_true_iff, IH, Ascii.eqb_eq. split.
      + intros [<-|(a & b & ->)].
        * by exists EmptyString, host.
        * by exists (String c a), b.
      + intros (a & b & H). destruct a as [|c' a];
          cbv [String.append] in H; fold String.append in H.
        * left. congruence.
        * right. injection H as -> ->. eauto. }
  rewrite <- Hiff. by destruct (existsb _ _).
Qed.

Lemma list_ascii_of_append s t :
  list_ascii_of_string (String.append s t)
  = list_ascii_of_string s ++ list_ascii_of_string t.
Proof.
  induction s as [|c s IH]; cbv [String.append]; fold String.append;
    simpl; [done|by rewrite IH].
Qed.

Lemma append_cancel_r s1 s2 t :
  String.append s1 t = String.append s2 t → s1 = s2.
Proof.
  intros H. apply (f_equal list_ascii_of_string) in H.
  rewrite !list_ascii_of_append in H. apply app_inv_tail in H.
  rewrite <- (string_of_list_ascii_of_string s1),
          <- (string_of_list_ascii_of_string s2). by rewrite H.
Qed.

Lemma to_int_not_nil z :
  Z.to_int z ≠ Decimal.Pos Decimal.Nil ∧ Z.to_int z ≠ Decimal.Neg Decimal.Nil.
Proof.
  destruct z as [|p|p]; simpl; split; try done;
    intros [= H]; by apply Unsigned.to_uint_nonnil in H.
Qed.

(** X9. Two cuts never share a file: [filename] sends different epochs
    to different names, and the name read back as a decimal number with
    its suffix removed is the epoch. *)
Theorem filename_is_injective a b :
  (filename a = filename b → a = b)
  ∧ ∃ digits, filename a = String.append digits ".gz"
              ∧ Z.of_int <$> NilZero.int_of_string digits = Some a.
Proof.
  assert (∀ z, NilZero.int_of_string (NilZero.string_of_int (Z.to_int z))
               = Some (Z.to_int z)) as Hback.
  { intros z. destruct (to_int_not_nil z). by apply NilZero.isi. }
  split.
  - unfold filename. intros H. apply append_cancel_r in H.
    apply (f_equal NilZero.int_of_string) in H. rewrite !Hback in H.
    injection H as H. apply (f_equal Z.of_int) in H.
    by rewrite !DecimalZ.of_to in H.
  - eexists. split; [reflexivity|]. rewrite Hback. simpl.
    by rewrite DecimalZ.of_to.
Qed.

Lemma subscript_returns d key r :
  subscript d key = Returns r
  ↔ ∃ members, d = JObject members ∧ members !! key = Some r.
Proof.
  split.
  - destruct d as [| | | | |members]; try done. simpl.
    destruct (members !! key) as [v|] eqn:Hv; [|done].
    intros [= <-]. eauto.
  - intros (members & -> & Hv). simpl. by rewrite Hv.
Qed.

Lemma subscript_raises d key e :
  subscript d key = Raises e
  ↔ (∃ members, d = JObject members ∧ members !! key = None
                ∧ e = KeyError key)
    ∨ ((∀ members, d ≠ JObject members) ∧ e = TypeError).
Proof.
  split.
  - destruct d as [| | | | |members]; simpl;
      try (intros [= <-]; right; by split).
    destruct (members !! key) as [v|] eqn:Hv; [done|].
    intros [= <-]. left. eauto.
  - intros [(members & -> & Hv & ->)|[Hd ->]].
    + simpl. by rewrite Hv.
    + destruct d; try done. by destruct (Hd members).
Qed.

Lemma cidr_blocks_loop_spec acc items :
  (∀ l, cidr_blocks_loop acc items = Returns l
        ↔ ∃ l', l = acc ++ l'
                ∧ Forall2 (λ d r, subscript d "ip_range" = Returns r) items l')
  ∧ (∀ e, cidr_blocks_loop acc items = Raises e
          ↔ ∃ pre d post,
              items = pre ++ d :: post
              ∧ Forall (λ x, ∃ r, subscript x "ip_range" = Returns r) pre
              ∧ subscript d "ip_range" = Raises e).
Proof.
  revert acc. induction items as [|d items IH]; intros acc;
    cbn [cidr_blocks_loop].
  - split.
    + intros l. split.
      * intros [= <-]. exists []. rewrite app_nil_r. split; [done|constructor].
      * intros (l' & -> & H). apply Forall2_nil_inv_l in H as ->.
        by rewrite app_nil_r.
    + intros e. split; [done|]. intros (pre & d & post & H & _).
      by destruct pre.
  - destruct (subscript d "ip_range") as [r|e0] eqn:Hr.
    + destruct (IH (acc ++ [r])) as [IHok IHerr]. split.
      * intros l. rewrite IHok. split.
        -- intros (l' & -> & H). exists (r :: l').
           rewrite <- app_assoc. split; [done|]. by constructor.
        -- intros (l' & -> & H).
           apply Forall2_cons_inv_l in H as (r' & l'' & Hr' & H & ->).
           assert (r' = r) as -> by congruence.
           exists l''. by rewrite <- app_assoc.
      * intros e. rewrite IHerr. split.
        -- intros (pre & d' & post & -> & Hpre & Hd').
           exists (d :: pre), d', post. split_and!; [done| |done].
           constructor; eauto.
        -- intros (pre & d' & post & Heq & Hpre & Hd').
           destruct pre as [|x pre]; simpl in Heq.
           ++ injection Heq as <- <-. congruence.
           ++ injection Heq as <- ->. apply Forall_cons in Hpre as [_ Hpre].
              by exists pre, d', post.
    + split.
      * intros l. split; [done|]. intros (l' & _ & H).
        apply Forall2_cons_inv_l in H as (r' & l'' & Hr' & _). congruence.
      * intros e. split.
        -- intros [= <-]. exists [], d, items. by split_and!.
        -- intros (pre & d' & post & Heq & Hpre & Hd').
           destruct pre as [|x pre]; simpl in Heq.
           ++ injection Heq as <- <-. congruence.
           ++ injection Heq as <- ->. apply Forall_cons in Hpre as [[r Hx] _].
              congruence.
Qed.

Lemma cidr_blocks_loop_not_indexable acc d items :
  (∀ members, d ≠ JObject members) →
  cidr_blocks_loop acc (d :: items) = Raises TypeError.
Proof.
  intros Hd. cbn [cidr_blocks_loop].
  destruct d; try done. by destruct (Hd members).
Qed.

(** X10. [cidr_blocks_from_request] is all or nothing, and what it
    raises is decided by the shape of the body.  A body that is not JSON
    raises [ValueError].  On a list it returns the [ip_range] values in
    the order of the list when every item is a dict with that key;
    otherwise the first item that is not such a dict decides: [KeyError]
    when it is a dict without the key, [TypeError] when it is not a
    dict.  A body that is not a list raises [TypeError], a non-empty
    dict (its keys are strings) and a non-empty string included; only
    the empty dict and the empty string give the empty list. *)
Theorem cidr_blocks_all_or_nothing :
  cidr_blocks_from_request None = Raises ValueError
  ∧ (∀ items l,
       cidr_blocks_from_request (Some (JArray items)) = Returns l
       ↔ Forall2 (λ d r, ∃ members,
                    d = JObject members ∧ members !! "ip_range" = Some r)
           items l)
  ∧ (∀ items e,
       cidr_blocks_from_request (Some (JArray items)) = Raises e
       ↔ ∃ pre d post,
           items = pre ++ d :: post
           ∧ Forall (λ x, ∃ members,
                       x = JObject members
                       ∧ is_Some (members !! "ip_range")) pre
           ∧ ((∃ members, d = JObject members
                          ∧ members !! "ip_range" = None
                          ∧ e = KeyError "ip_range")
              ∨ ((∀ members, d ≠ JObject members) ∧ e = TypeError)))
  ∧ cidr_blocks_from_request (Some (JObject ∅)) = Returns []
  ∧ cidr_blocks_from_request (Some (JString "")) = Returns []
  ∧ (∀ body,
       (∀ items, body ≠ JArray items) →
       body ≠ JObject ∅ → body ≠ JString "" →
       cidr_blocks_from_request (Some body) = Raises TypeError).
Proof.
  split_and!; try done.
  - intros items l. cbn [cidr_blocks_from_request iterate].
    destruct (cidr_blocks_loop_spec [] items) as [Hok _]. rewrite Hok.
    split.
    + intros (l' & -> & H). simpl.
      eapply Forall2_impl; [exact H|]. intros d r Hd.
      by apply subscript_returns.
    + intros H. exists l. split; [done|].
      eapply Forall2_impl; [exact H|]. intros d r Hd.
      by apply subscript_returns.
  - intros items e. cbn [cidr_blocks_from_request iterate].
    destruct (cidr_blocks_loop_spec [] items) as [_ Herr]. rewrite Herr.
    split.
    + intros (pre & d & post & -> & Hpre & Hd).
      exists pre, d, post. split_and!; [done| |by apply subscript_raises].
      eapply Forall_impl; [exact Hpre|]. intros x [r Hx].
      apply subscript_returns in Hx as (members & -> & Hm). eauto.
    + intros (pre & d & post & -> & Hpre & Hd).
      exists pre, d, post. split_and!; [done| |by apply subscript_raises].
      eapply Forall_impl; [exact Hpre|]. intros x (members & -> & [r Hr]).
      exists r. apply subscript_returns. eauto.
  - intros body Harr Hobj Hstr.
    destruct body as [|b|n|s|items|members]; try done.
    + destruct s as [|c s]; [done|].
      cbn [cidr_blocks_from_request iterate list_ascii_of_string fmap list_fmap].
      by apply cidr_blocks_loop_not_indexable.
    + by destruct (Harr items).
    + cbn [cidr_blocks_from_request iterate].
      destruct (map_to_list members) as [|[k v] kvs] eqn:Hm.
      * apply map_to_list_empty_iff in Hm. by subst.
      * rewrite !fmap_cons. by apply cidr_blocks_loop_not_indexable.
Qed.

Section FilterProperties.

Context {Ip Block Address Network : Type}.
Variable ip_address : Ip → option Address.
Variable ip_network : Block → option Network.
Variable contains : Network → Address → bool.

(** X11. The first matching block decides: when the address parses, the
    blocks before the match parse and do not contain it, and one block
    contains it, the answer is [True] whatever follows, malformed blocks
    included. *)
Theorem first_matching_block_decides ip a pre cidr n post :
  ip_address ip = Some a →
  Forall (λ c, ∃ m, ip_network c = Some m ∧ contains m a = false) pre →
  ip_network cidr = Some n → contains n a = true →
  in_cidr_block ip_address ip_network contains ip (pre ++ cidr :: post)
  = Returns true.
Proof.
  intros Ha Hpre Hn Hc. induction Hpre as [|c pre (m & Hm & Hcm) _ IH]; simpl.
  - by rewrite Ha, Hn, Hc.
  - by rewrite Ha, Hm, Hcm.
Qed.

(** X12. When the address and every block parse, [in_cidr_block] says
    whether some block contains the address.  An address that does not
    parse makes the call raise [ValueError], unless the block list is
    empty: then the address is not even looked at and the answer is
    [False]. *)
Theorem in_cidr_block_on_parsed_input ip blocks nets :
  Forall2 (λ c n, ip_network c = Some n) blocks nets →
  (∀ a, ip_address ip = Some a →
        in_cidr_block ip_address ip_network contains ip blocks
        = Returns (existsb (λ n, contains n a) nets))
  ∧ (ip_address ip = None →
     in_cidr_block ip_address ip_network contains ip blocks
     = match blocks with [] => Returns false | _ => Raises ValueError end).
Proof.
  intros Hall. split.
  - intros a Ha. induction Hall as [|c n blocks nets Hn _ IH]; simpl; [done|].
    rewrite Ha, Hn. by destruct (contains n a).
  - intros Ha. destruct blocks; simpl; [done|]. by rewrite Ha.
Qed.

Lemma in_cidr_block_empty ip :
  in_cidr_block ip_address ip_network contains ip [] = Returns false.
Proof. done. Qed.

Lemma in_cidr_block_raises ip blocks e :
  in_cidr_block ip_address ip_network contains ip blocks = Raises e →
  e = ValueError.
Proof.
  induction blocks as [|c blocks IH]; simpl; [done|].
  destruct (ip_address ip); [|by intros [= <-]].
  destruct (ip_network c) as [n|]; [|by intros [= <-]].
  by destruct (contains n _).
Qed.

End FilterProperties.

Section ConsumerProperties.

Context {Address Network : Type}.
Variable ip_address : Z → option Address.
Variable ip_network : json_value → option Network.
Variable contains : Network → Address → bool.

Lemma select_flows_spec blocks acc fs sel :
  select_flows ip_address ip_network contains blocks acc fs = Returns sel →
  ∃ sel', sel = acc ++ sel'
          ∧ sel' `sublist_of` fs
          ∧ Forall (kept ip_address ip_network contains blocks) sel'
          ∧ (∀ f, f ∈ fs → kept ip_address ip_network contains blocks f ∨ skipped ip_address ip_network contains blocks f)
          ∧ (∀ f, f ∈ fs → kept ip_address ip_network contains blocks f → f ∈ sel').
Proof.
  revert acc. induction fs as [|f fs IH]; intros acc; simpl.
  { intros [= <-]. exists []. rewrite app_nil_r. split_and!; try done.
    all: intros f Hf; by apply elem_of_nil in Hf. }
  destruct (field "IPV4_SRC_ADDR" f) as [src|] eqn:Hsrc; [|done].
  destruct (in_cidr_block _ _ _ src blocks) as [[|]|] eqn:Hs; [| |done].
  - intros H. destruct (IH _ H) as (sel' & -> & Hsub & Hk & Hall & Hin).
    assert (kept ip_address ip_network contains blocks f) as Hkf by (left; eauto).
    exists (f :: sel'). rewrite <- app_assoc. split_and!; try done.
    + by apply sublist_skip.
    + by constructor.
    + intros g Hg. apply elem_of_cons in Hg as [->|Hg]; auto.
    + intros g Hg Hkg. apply elem_of_cons in Hg as [->|Hg];
        apply elem_of_cons; auto.
  - destruct (field "IPV4_DST_ADDR" f) as [dst|] eqn:Hdst; [|done].
    destruct (in_cidr_block _ _ _ dst blocks) as [[|]|] eqn:Hd; [| |done].
    + intros H. destruct (IH _ H) as (sel' & -> & Hsub & Hk & Hall & Hin).
      assert (kept ip_address ip_network contains blocks f) as Hkf by (right; eauto 10).
      exists (f :: sel'). rewrite <- app_assoc. split_and!; try done.
      * by apply sublist_skip.
      * by constructor.
      * intros g Hg. apply elem_of_cons in Hg as [->|Hg]; auto.
      * intros g Hg Hkg. apply elem_of_cons in Hg as [->|Hg];
          apply elem_of_cons; auto.
    + intros H. destruct (IH _ H) as (sel' & -> & Hsub & Hk & Hall & Hin).
      assert (skipped ip_address ip_network contains blocks f) as Hsf by (unfold skipped; eauto 10).
      exists sel'. split_and!; try done.
      * by apply sublist_cons.
      * intros g Hg. apply elem_of_cons in Hg as [->|Hg]; auto.
      * intros g Hg Hkg. apply elem_of_cons in Hg as [->|Hg]; [|auto].
        exfalso. destruct Hsf as (s1 & d1 & H1 & H2 & H3 & H4).
        destruct Hkg as [(s2 & H5 & H6)|(s2 & d2 & H5 & H6 & H7 & H8)];
          congruence.
Qed.

(** X13. When the selection of flows returns, the flows kept are, in
    their order, exactly those flows of the export whose source address,
    or else whose destination address, lies in a block; every other flow
    had both addresses looked up and found outside. *)
Theorem selected_flows_are_the_matching_ones blocks fs sel :
  select_flows ip_address ip_network contains blocks [] fs = Returns sel →
  sel `sublist_of` fs
  ∧ (∀ f, f ∈ sel ↔ f ∈ fs ∧ kept ip_address ip_network contains blocks f)
  ∧ (∀ f, f ∈ fs → f ∉ sel → skipped ip_address ip_network contains blocks f).
Proof.
  intros H.
  destruct (select_flows_spec _ _ _ _ H) as (sel' & -> & Hsub & Hk & Hall & Hin).
  simpl. split_and!; try done.
  - intros f. split.
    + intros Hf. split; [by eapply elem_of_sublist|].
      rewrite Forall_forall in Hk. by apply Hk.
    + intros [Hf Hkf]. by apply Hin.
  - intros f Hf Hnot. destruct (Hall f Hf) as [Hkf|Hsf]; [|done].
    exfalso. by apply Hnot, Hin.
Qed.

Lemma select_flows_no_blocks acc fs :
  select_flows ip_address ip_network contains [] acc fs = Returns acc
  ∨ ∃ key, select_flows ip_address ip_network contains [] acc fs
           = Raises (KeyError key).
Proof.
  induction fs as [|f fs IH]; simpl; [by left|].
  destruct (field "IPV4_SRC_ADDR" f); [|right; eauto].
  destruct (field "IPV4_DST_ADDR" f); [|right; eauto]. done.
Qed.

End ConsumerProperties.

(** ** The upload and the cuts *)

Lemma upload_cases answer epoch :
  ∃ effs e, upload answer epoch = (effs, e)
  ∧ ((answer 0%nat = None ∧ effs = [Post true epoch] ∧ e = Some RequestException)
     ∨ (answer 0%nat = Some 200 ∧ effs = [Post true epoch] ∧ e = None)
     ∨ (∃ c0, answer 0%nat = Some c0 ∧ c0 ≠ 200
          ∧ ((answer 1%nat = None
              ∧ effs = [Post true epoch; Sleep 1; Post false epoch]
              ∧ e = Some RequestException)
             ∨ (answer 1%nat = Some 200
                ∧ effs = [Post true epoch; Sleep 1; Post false epoch]
                ∧ e = None)
             ∨ (∃ c1, answer 1%nat = Some c1 ∧ c1 ≠ 200
                  ∧ ((answer 2%nat = None
                      ∧ effs = [Post true epoch; Sleep 1; Post false epoch;
                                Sleep 2; Post false epoch]
                      ∧ e = Some RequestException)
                     ∨ (answer 2%nat = Some 200
                        ∧ effs = [Post true epoch; Sleep 1; Post false epoch;
                                  Sleep 2; Post false epoch]
                        ∧ e = None)
                     ∨ (∃ c2, answer 2%nat = Some c2 ∧ c2 ≠ 200
                          ∧ ((answer 3%nat = None
                              ∧ effs = [Post true epoch; Sleep 1; Post false epoch;
                                        Sleep 2; Post false epoch;
                                        Sleep 3; Post false epoch]
                              ∧ e = Some RequestException)
                             ∨ (∃ c3, answer 3%nat = Some c3
                                  ∧ effs = [Post true epoch; Sleep 1; Post false epoch;
                                            Sleep 2; Post false epoch;
                                            Sleep 3; Post false epoch]
                                  ∧ e = None)))))))).
Proof.
  unfold upload.
  destruct (answer 0%nat) as [c0|] eqn:H0; [|by eauto 10].
  cbn [retry_post]. destruct (Z.eqb_spec c0 200) as [->|Hc0]; [by eauto 10|].
  destruct (answer 1%nat) as [c1|] eqn:H1; [|by eauto 20].
  destruct (Z.eqb_spec c1 200) as [->|Hc1]; [by eauto 20|].
  destruct (answer 2%nat) as [c2|] eqn:H2; [|by eauto 30].
  destruct (Z.eqb_spec c2 200) as [->|Hc2]; [by eauto 30|].
  destruct (answer 3%nat) as [c3|] eqn:H3; [|by eauto 40].
  do 2 eexists. split; [reflexivity|].
  right; right. exists c0. split_and!; try done.
  right; right. exists c1. split_and!; try done.
  right; right. exists c2. split_and!; try done.
  right. exists c3. by split_and!.
Qed.

(** X14. An upload makes at most four POSTs and sleeps at most six
    seconds; only the first POST carries the authorization header; no
    POST follows an answer with status 200; and the upload does nothing
    but post and sleep. *)
Theorem upload_is_bounded answer epoch :
  head (upload answer epoch).1 = Some (Post true epoch)
  ∧ Forall (λ x, x = Post false epoch ∨ ∃ n, x = Sleep n ∧ 1 ≤ n ≤ 3)
      (tail (upload answer epoch).1)
  ∧ (List.length (List.filter is_post (upload answer epoch).1) ≤ 4)%nat
  ∧ 0 ≤ slept (upload answer epoch).1 ≤ 6
  ∧ (∀ k, answer k = Some 200 →
          (List.length (List.filter is_post (upload answer epoch).1) ≤ S k)%nat)
  ∧ ((upload answer epoch).2 = None
     ∨ (upload answer epoch).2 = Some RequestException).
Proof.
  destruct (upload_cases answer epoch) as (effs & e & -> & Hc). cbn [fst snd].
  assert (∀ effs' e',
            effs = effs' → e = e' →
            head effs' = Some (Post true epoch) →
            Forall (λ x, x = Post false epoch ∨ ∃ n, x = Sleep n ∧ 1 ≤ n ≤ 3)
              (tail effs') →
            (List.length (List.filter is_post effs') ≤ 4)%nat →
            0 ≤ slept effs' ≤ 6 →
            (∀ k, answer k = Some 200 →
                  (List.length (List.filter is_post effs') ≤ S k)%nat) →
            (e' = None ∨ e' = Some RequestException) →
            head effs = Some (Post true epoch)
            ∧ Forall (λ x, x = Post false epoch ∨ ∃ n, x = Sleep n ∧ 1 ≤ n ≤ 3)
                (tail effs)
            ∧ (List.length (List.filter is_post effs) ≤ 4)%nat
            ∧ 0 ≤ slept effs ≤ 6
            ∧ (∀ k, answer k = Some 200 →
                    (List.length (List.filter is_post effs) ≤ S k)%nat)
            ∧ (e = None ∨ e = Some RequestException)) as Hpack.
  { by intros ? ? -> ->. }
  assert (∀ n, 1 ≤ n ≤ 3 →
            Sleep n = Post false epoch ∨ ∃ m, Sleep n = Sleep m ∧ 1 ≤ m ≤ 3)
    as Hsleep by (intros n Hn; right; by exists n).
  assert (Post false epoch = Post false epoch
          ∨ ∃ m, Post false epoch = Sleep m ∧ 1 ≤ m ≤ 3) as Hpost by by left.
  destruct Hc as [(H0 & He & Hx)|[(H0 & He & Hx)|(c0 & H0 & Hc0 & Hc)]];
    [| |destruct Hc as [(H1 & He & Hx)|[(H1 & He & Hx)|(c1 & H1 & Hc1 & Hc)]];
        [| |destruct Hc as [(H2 & He & Hx)|[(H2 & He & Hx)|(c2 & H2 & Hc2 & Hc)]];
            [| |destruct Hc as [(H3 & He & Hx)|(c3 & H3 & He & Hx)]]]];
    (eapply Hpack; [exact He|exact Hx|done
                   |cbn [tail]; repeat (apply Forall_cons; split;
                       [first [exact Hpost | apply Hsleep; lia]|]);
                    apply Forall_nil
                   |simpl; lia
                   |simpl; lia
                   |intros k Hk; simpl;
                    do 4 (destruct k as [|k]; [first [lia|congruence]|]); lia
                   |eauto]).
  all: exact I.
Qed.

Lemma upload_only_posts_and_sleeps answer epoch x :
  x ∈ (upload answer epoch).1 → (∃ b, x = Post b epoch) ∨ ∃ n, x = Sleep n.
Proof.
  destruct (upload_cases answer epoch) as (effs & e & -> & Hc). cbn [fst].
  intros Hx.
  assert (Forall (λ y, (∃ b, y = Post b epoch) ∨ ∃ n, y = Sleep n) effs)
    as Hall; [|by eapply Forall_forall in Hall].
  clear Hx.
  destruct Hc as [(_ & -> & _)|[(_ & -> & _)|(c0 & _ & _ & Hc)]];
    [| |destruct Hc as [(_ & -> & _)|[(_ & -> & _)|(c1 & _ & _ & Hc)]];
        [| |destruct Hc as [(_ & -> & _)|[(_ & -> & _)|(c2 & _ & _ & Hc)]];
            [| |destruct Hc as [(_ & -> & _)|(c3 & _ & -> & _)]]]];
    repeat (apply Forall_cons; split; [eauto|]); by apply Forall_nil.
Qed.

Section ConsumerLoop.

Context {Address Network : Type}.
Variable ip_address : Z → option Address.
Variable ip_network : json_value → option Network.
Variable contains : Network → Address → bool.

Lemma write_line_spec st effs pp sel :
  current_epoch (write_line st effs pp sel).1 = current_epoch st
  ∧ in_duration_epoch (write_line st effs pp sel).1 = in_duration_epoch st
  ∧ cidr_blocks (write_line st effs pp sel).1 = cidr_blocks st
  ∧ (sel = [] ∧ write_line st effs pp sel = (st, effs)
     ∨ sel ≠ []
       ∧ files (write_line st effs pp sel).1 = {[current_epoch st]} ∪ files st
       ∧ (write_line st effs pp sel).2
         = effs ++ [Append (current_epoch st) (ParsedPacket.ts pp)
                           (ParsedPacket.client pp) sel]).
Proof.
  destruct sel; cbn [write_line fst snd current_epoch in_duration_epoch
                     cidr_blocks files]; split_and!; try done;
    [by left|by right].
Qed.

(** Splits the body of the consumer's loop into its ways through. *)
Ltac consume_paths st pp a :=
  unfold consume;
  destruct (select_flows ip_address ip_network contains (cidr_blocks st) []
              (flows (ParsedPacket.export pp))) as [sel|e] eqn:Hsel;
  [destruct (Qle_bool (clock_test a) (inject_Z (in_duration_epoch st))) eqn:Hq;
   cbn [negb];
   [|case_bool_decide as Hfile;
     [destruct (upload (post_status a) (current_epoch st)) as [effs [e|]] eqn:Hup;
      [|destruct (filter_reply a) as [[status body]|] eqn:Hget;
        [destruct (status =? 200) eqn:Hstatus;
         [destruct (cidr_blocks_from_request body) as [blocks|e] eqn:Hjson|]|]]
     |]]
  |].

Lemma consume_cut st pp a :
  in_duration_epoch st = current_epoch st + duration_of_cut →
  in_duration_epoch (consume ip_address ip_network contains st pp a).1
  = current_epoch (consume ip_address ip_network contains st pp a).1
    + duration_of_cut
  ∧ (current_epoch (consume ip_address ip_network contains st pp a).1
     = current_epoch st
     ∨ (inject_Z (in_duration_epoch st) < clock_test a)%Q
       ∧ current_epoch (consume ip_address ip_network contains st pp a).1
         = int (clock_cut a)).
Proof.
  intros Hinv.
  assert (Qle_bool (clock_test a) (inject_Z (in_duration_epoch st)) = false →
          (inject_Z (in_duration_epoch st) < clock_test a)%Q) as Hlate.
  { intros Hq. apply Qnot_le_lt. intros Hle. apply Qle_bool_iff in Hle.
    congruence. }
  consume_paths st pp a;
    repeat match goal with
    | |- context [write_line ?s ?e ?p ?l] =>
        destruct (write_line_spec s e p l) as (-> & -> & _ & _)
    end; cbn [fst current_epoch in_duration_epoch new_cut]; auto.
Qed.

(** X15. Every cut lasts [duration_of_cut] = 300 seconds on the
    consumer's clock: whatever the packets and the answers of the
    outside, the end of the current cut stays 300 seconds after its
    start. *)
Theorem cut_lasts_300_seconds st packets :
  in_duration_epoch st = current_epoch st + 300 →
  in_duration_epoch (consume_all ip_address ip_network contains st packets).1
  = current_epoch (consume_all ip_address ip_network contains st packets).1 + 300.
Proof.
  revert st. induction packets as [|[pp a] packets IH]; intros st Hinv; [done|].
  cbn [consume_all]. destruct (consume_cut st pp a Hinv) as [Hinv1 _].
  destruct (consume ip_address ip_network contains st pp a) as [st1 effs1].
  specialize (IH st1 Hinv1).
  by destruct (consume_all ip_address ip_network contains st1 packets).
Qed.

Lemma consume_no_blocks st pp a :
  cidr_blocks st = [] → files st = ∅ →
  cidr_blocks (consume ip_address ip_network contains st pp a).1 = []
  ∧ files (consume ip_address ip_network contains st pp a).1 = ∅
  ∧ Forall (λ x, is_log_error x = true)
      (consume ip_address ip_network contains st pp a).2.
Proof.
  intros Hb Hf. unfold consume. rewrite Hb.
  destruct (select_flows_no_blocks ip_address ip_network contains []
              (flows (ParsedPacket.export pp))) as [->|[key ->]].
  - destruct (Qle_bool _ _); cbn [negb].
    + cbn [write_line fst snd]. by split_and!.
    + rewrite bool_decide_eq_false_2; [|rewrite Hf; apply not_elem_of_empty].
      cbn [write_line new_cut fst snd cidr_blocks files].
      by split_and!.
  - cbn [fst snd]. split_and!; try done. by repeat constructor.
Qed.

(** X16. An empty block list is never refreshed: when the consumer has
    no block and no cut file, then whatever packets arrive and whatever
    the outside answers, it writes nothing, uploads nothing, never asks
    for the filter again, and its block list stays empty; all it can do
    is log an error. *)
Theorem empty_block_list_is_never_refreshed st packets :
  cidr_blocks st = [] → files st = ∅ →
  cidr_blocks (consume_all ip_address ip_network contains st packets).1 = []
  ∧ files (consume_all ip_address ip_network contains st packets).1 = ∅
  ∧ Forall (λ x, is_log_error x = true)
      (consume_all ip_address ip_network contains st packets).2.
Proof.
  revert st. induction packets as [|[pp a] packets IH]; intros st Hb Hf.
  { by split_and!. }
  cbn [consume_all].
  destruct (consume_no_blocks st pp a Hb Hf) as (Hb1 & Hf1 & Hl1).
  destruct (consume ip_address ip_network contains st pp a) as [st1 effs1].
  cbn [fst snd] in *.
  destruct (IH st1 Hb1 Hf1) as (Hb2 & Hf2 & Hl2).
  destruct (consume_all ip_address ip_network contains st1 packets)
    as [st2 effs2].
  cbn [fst snd] in *. split_and!; try done. by apply Forall_app.
Qed.

Lemma upload_no_append answer epoch effs e :
  upload answer epoch = (effs, e) →
  List.filter is_append effs = [] ∧ ∀ ep ts c fl, Append ep ts c fl ∉ effs.
Proof.
  intros Hup.
  assert (∀ x, x ∈ effs → (∃ b, x = Post b epoch) ∨ ∃ n, x = Sleep n) as Hall.
  { intros x Hx. apply (upload_only_posts_and_sleeps answer epoch).
    by rewrite Hup. }
  split.
  - clear Hup. induction effs as [|x effs IH]; [done|].
    cbn [List.filter].
    destruct (Hall x) as [[b ->]|[n ->]]; [apply elem_of_cons; by left| |];
      cbn [is_append]; apply IH; intros y Hy; apply Hall, elem_of_cons;
      by right.
  - intros ep ts c fl Hin. by destruct (Hall _ Hin) as [[b [=]]|[n [=]]].
Qed.

Lemma filter_is_append_app l1 l2 :
  List.filter is_append (l1 ++ l2)
  = List.filter is_append l1 ++ List.filter is_append l2.
Proof. apply List.filter_app. Qed.

(** X17. A packet is written at most once, and only when some of its
    flows were selected: the line carries the packet's time stamp and
    sender and the flows selected with the block list the consumer had
    when the packet arrived, and it goes to the file of the cut that is
    current after the packet, which exists afterwards. *)
Theorem line_goes_to_current_cut st pp a :
  (List.length (List.filter is_append
     (consume ip_address ip_network contains st pp a).2) ≤ 1)%nat
  ∧ ∀ epoch ts client sel,
      Append epoch ts client sel
        ∈ (consume ip_address ip_network contains st pp a).2 →
      epoch = current_epoch (consume ip_address ip_network contains st pp a).1
      ∧ epoch ∈ files (consume ip_address ip_network contains st pp a).1
      ∧ ts = ParsedPacket.ts pp ∧ client = ParsedPacket.client pp
      ∧ sel ≠ []
      ∧ select_flows ip_address ip_network contains (cidr_blocks st) []
          (flows (ParsedPacket.export pp)) = Returns sel.
Proof.
  assert (∀ s effs sel0,
            List.filter is_append effs = [] →
            (∀ ep ts c fl, Append ep ts c fl ∉ effs) →
            (List.length (List.filter is_append
               (write_line s effs pp sel0).2) ≤ 1)%nat
            ∧ ∀ epoch ts client sel,
                Append epoch ts client sel ∈ (write_line s effs pp sel0).2 →
                epoch = current_epoch (write_line s effs pp sel0).1
                ∧ epoch ∈ files (write_line s effs pp sel0).1
                ∧ ts = ParsedPacket.ts pp ∧ client = ParsedPacket.client pp
                ∧ sel ≠ [] ∧ sel0 = sel) as Hwrite.
  { intros s effs sel0 Hnone Hnot.
    destruct (write_line_spec s effs pp sel0)
      as (He & _ & _ & [[-> Hw]|(Hne & Hfiles & Heffs)]).
    - rewrite Hw. cbn [fst snd]. rewrite Hnone. split; [simpl; lia|].
      intros epoch ts client sel Hin. by apply Hnot in Hin.
    - rewrite Heffs, He, Hfiles, filter_is_append_app, Hnone.
      split; [simpl; lia|].
      intros epoch ts client sel [Hin|Hin]%elem_of_app; [by apply Hnot in Hin|].
      apply list_elem_of_singleton in Hin. injection Hin as -> -> -> ->.
      split_and!; try done. apply elem_of_union. left.
      by apply elem_of_singleton. }
  assert (∀ effs (x y : io),
            List.filter is_append effs = [] →
            (∀ ep ts c fl, Append ep ts c fl ∉ effs) →
            is_append x = false → is_append y = false →
            List.filter is_append (effs ++ [x; y]) = []
            ∧ ∀ ep ts c fl, Append ep ts c fl ∉ effs ++ [x; y]) as Htwo.
  { intros effs x y Hnone Hnot Hx Hy. split.
    - rewrite filter_is_append_app, Hnone. simpl. by rewrite Hx, Hy.
    - intros ep ts c fl [Hin|Hin]%elem_of_app; [by eapply Hnot|].
      apply elem_of_cons in Hin as [<-|Hin]; [done|].
      apply list_elem_of_singleton in Hin as <-. done. }
  assert (∀ effs (x : io),
            List.filter is_append effs = [] →
            (∀ ep ts c fl, Append ep ts c fl ∉ effs) →
            is_append x = false →
            (List.length (List.filter is_append (effs ++ [x])) ≤ 1)%nat
            ∧ ∀ ep ts c fl, Append ep ts c fl ∉ effs ++ [x]) as Hone.
  { intros effs x Hnone Hnot Hx. split.
    - rewrite filter_is_append_app, Hnone. simpl. rewrite Hx. simpl. lia.
    - intros ep ts c fl [Hin|Hin]%elem_of_app; [by eapply Hnot|].
      apply list_elem_of_singleton in Hin as <-. done. }
  assert (List.filter is_append [] = []
          ∧ ∀ ep ts c fl, Append ep ts c fl ∉ @nil io) as [Hnil1 Hnil2].
  { split; [done|]. intros ep ts c fl Hin. by apply elem_of_nil in Hin. }
  consume_paths st pp a; cbn [fst snd].
  - destruct (Hwrite st [] sel Hnil1 Hnil2) as [Hlen Hin]. split; [done|].
    intros epoch ts client sel' H.
    destruct (Hin _ _ _ _ H) as (? & ? & ? & ? & ? & <-). by split_and!.
  - destruct (upload_no_append _ _ _ _ Hup) as [Hn1 Hn2].
    destruct (Hone effs (LogError e) Hn1 Hn2 eq_refl) as [Hlen Hnot].
    split; [done|]. intros epoch ts client sel' H. by apply Hnot in H.
  - destruct (upload_no_append _ _ _ _ Hup) as [Hn1 Hn2].
    destruct (Htwo effs (Remove (current_epoch st)) GetFilter Hn1 Hn2
                eq_refl eq_refl) as [Hm1 Hm2].
    match goal with |- context [write_line ?s ?e0 pp sel] =>
      destruct (Hwrite s e0 sel Hm1 Hm2) as [Hlen Hin]
    end.
    split; [done|]. intros epoch ts client sel' H.
    destruct (Hin _ _ _ _ H) as (? & ? & ? & ? & ? & <-). by split_and!.
  - destruct (upload_no_append _ _ _ _ Hup) as [Hn1 Hn2].
    destruct (Htwo effs (Remove (current_epoch st)) GetFilter Hn1 Hn2
                eq_refl eq_refl) as [Hm1 Hm2].
    destruct (Hone _ (LogError e) Hm1 Hm2 eq_refl) as [Hlen Hnot].
    split; [done|]. intros epoch ts client sel' H. by apply Hnot in H.
  - destruct (upload_no_append _ _ _ _ Hup) as [Hn1 Hn2].
    destruct (Htwo effs (Remove (current_epoch st)) GetFilter Hn1 Hn2
                eq_refl eq_refl) as [Hm1 Hm2].
    match goal with |- context [write_line ?s ?e0 pp sel] =>
      destruct (Hwrite s e0 sel Hm1 Hm2) as [Hlen Hin]
    end.
    split; [done|]. intros epoch ts client sel' H.
    destruct (Hin _ _ _ _ H) as (? & ? & ? & ? & ? & <-). by split_and!.
  - destruct (upload_no_append _ _ _ _ Hup) as [Hn1 Hn2].
    destruct (Htwo effs (Remove (current_epoch st)) GetFilter Hn1 Hn2
                eq_refl eq_refl) as [Hm1 Hm2].
    destruct (Hone _ (LogError RequestException) Hm1 Hm2 eq_refl)
      as [Hlen Hnot].
    split; [done|]. intros epoch ts client sel' H. by apply Hnot in H.
  - destruct (Hwrite (new_cut st a) [] sel Hnil1 Hnil2) as [Hlen Hin].
    split; [done|]. intros epoch ts client sel' H.
    destruct (Hin _ _ _ _ H) as (? & ? & ? & ? & ? & <-). by split_and!.
  - split; [simpl; lia|]. intros epoch ts client sel'.
    rewrite list_elem_of_singleton. done.
Qed.

Lemma upload_raises answer epoch :
  ((upload answer epoch).2 = None
   ∨ (upload answer epoch).2 = Some RequestException)
  ∧ ((upload answer epoch).2 = Some RequestException
     ↔ ∃ k, (k ≤ 3)%nat ∧ answer k = None
            ∧ ∀ j, (j < k)%nat → ∃ c, answer j = Some c ∧ c ≠ 200).
Proof.
  assert (∀ k (P : nat → Prop),
            (k ≤ 3)%nat → P 0%nat → P 1%nat → P 2%nat → P 3%nat → P k)
    as Hfour.
  { intros k P Hk P0 P1 P2 P3.
    do 4 (destruct k as [|k]; [done|]). lia. }
  unfold upload.
  destruct (answer 0%nat) as [c0|] eqn:H0; cbn [retry_post snd].
  2:{ split; [by right|]. split; [|done]. intros _. exists 0%nat.
      split_and!; [lia|done|lia]. }
  destruct (Z.eqb_spec c0 200) as [->|Hc0]; cbn [snd].
  { split; [by left|]. split; [done|]. intros (k & Hk & Hnone & Hprev).
    destruct k as [|k]; [congruence|].
    destruct (Hprev 0%nat) as (c & Hc & Hne); [lia|]. congruence. }
  destruct (answer 1%nat) as [c1|] eqn:H1; cbn [snd].
  2:{ split; [by right|]. split; [|done]. intros _. exists 1%nat.
      split_and!; [lia|done|]. intros j Hj.
      assert (j = 0%nat) as -> by lia. eauto. }
  destruct (Z.eqb_spec c1 200) as [->|Hc1]; cbn [snd].
  { split; [by left|]. split; [done|]. intros (k & Hk & Hnone & Hprev).
    destruct k as [|[|k]]; [congruence|congruence|].
    destruct (Hprev 1%nat) as (c & Hc & Hne); [lia|]. congruence. }
  destruct (answer 2%nat) as [c2|] eqn:H2; cbn [snd].
  2:{ split; [by right|]. split; [|done]. intros _. exists 2%nat.
      split_and!; [lia|done|]. intros j Hj.
      destruct j as [|[|j]]; [eauto|eauto|lia]. }
  destruct (Z.eqb_spec c2 200) as [->|Hc2]; cbn [snd].
  { split; [by left|]. split; [done|]. intros (k & Hk & Hnone & Hprev).
    destruct k as [|[|[|k]]]; [congruence|congruence|congruence|].
    destruct (Hprev 2%nat) as (c & Hc & Hne); [lia|]. congruence. }
  destruct (answer 3%nat) as [c3|] eqn:H3; cbn [snd].
  2:{ split; [by right|]. split; [|done]. intros _. exists 3%nat.
      split_and!; [lia|done|]. intros j Hj.
      destruct j as [|[|[|j]]]; [eauto|eauto|eauto|lia]. }
  split; [by left|]. split; [done|]. intros (k & Hk & Hnone & _).
  revert Hnone. apply (Hfour k (λ k, answer k = None → _) Hk); congruence.
Qed.

Lemma consume_uploaded st pp a sel effs :
  select_flows ip_address ip_network contains (cidr_blocks st) []
    (flows (ParsedPacket.export pp)) = Returns sel →
  Qle_bool (clock_test a) (inject_Z (in_duration_epoch st)) = false →
  current_epoch st ∈ files st →
  upload (post_status a) (current_epoch st) = (effs, None) →
  ∃ rest,
    (consume ip_address ip_network contains st pp a).2
    = effs ++ [Remove (current_epoch st); GetFilter] ++ rest.
Proof.
  intros Hsel Hq Hfile Hup.
  unfold consume. rewrite Hsel, Hq. cbn [negb].
  rewrite bool_decide_eq_true_2 by done. rewrite Hup.
  assert (∀ s e0, ∃ rest,
            (write_line s (effs ++ [Remove (current_epoch st); GetFilter])
               pp e0).2
            = effs ++ [Remove (current_epoch st); GetFilter] ++ rest) as Hw.
  { intros s e0. destruct e0; cbn [write_line snd].
    - exists []. by rewrite app_nil_r.
    - eexists. by rewrite <- app_assoc. }
  assert (∀ (s : consumer) (x : io), ∃ rest,
            (s, (effs ++ [Remove (current_epoch st); GetFilter]) ++ [x]).2
            = effs ++ [Remove (current_epoch st); GetFilter] ++ rest) as Hx.
  { intros s x. exists [x]. cbn [snd]. by rewrite <- app_assoc. }
  destruct (filter_reply a) as [[status body]|]; [|apply Hx].
  destruct (status =? 200); [|apply Hw].
  destruct (cidr_blocks_from_request body); [apply Hw|apply Hx].
Qed.

Lemma consume_upload_raised st pp a sel effs e :
  select_flows ip_address ip_network contains (cidr_blocks st) []
    (flows (ParsedPacket.export pp)) = Returns sel →
  Qle_bool (clock_test a) (inject_Z (in_duration_epoch st)) = false →
  current_epoch st ∈ files st →
  upload (post_status a) (current_epoch st) = (effs, Some e) →
  consume ip_address ip_network contains st pp a = (st, effs ++ [LogError e]).
Proof.
  intros Hsel Hq Hfile Hup.
  unfold consume. rewrite Hsel, Hq. cbn [negb].
  rewrite bool_decide_eq_true_2 by done. by rewrite Hup.
Qed.

(** X18. When a cut has ended and its file exists, the file is removed
    after the upload even though no POST was answered with status 200:
    after three failed answers the fourth POST is made and its status is
    not looked at.  The file is kept, and the cut is not closed, exactly
    when one of the POSTs raises (a POST is made only while the answers
    before it were not 200): then nothing follows but the log of the
    error, and the consumer's variables are as before the packet. *)
Theorem file_removed_after_failed_upload st pp a sel :
  select_flows ip_address ip_network contains (cidr_blocks st) []
    (flows (ParsedPacket.export pp)) = Returns sel →
  (inject_Z (in_duration_epoch st) < clock_test a)%Q →
  current_epoch st ∈ files st →
  (∀ c0 c1 c2 c3,
     post_status a 0%nat = Some c0 → post_status a 1%nat = Some c1 →
     post_status a 2%nat = Some c2 → post_status a 3%nat = Some c3 →
     c0 ≠ 200 → c1 ≠ 200 → c2 ≠ 200 →
     ∃ rest,
       (consume ip_address ip_network contains st pp a).2
       = [Post true (current_epoch st);
          Sleep 1; Post false (current_epoch st);
          Sleep 2; Post false (current_epoch st);
          Sleep 3; Post false (current_epoch st);
          Remove (current_epoch st); GetFilter] ++ rest)
  ∧ (post_status a 0%nat = None →
     consume ip_address ip_network contains st pp a
     = (st, [Post true (current_epoch st); LogError RequestException]))
  ∧ ((∃ k, (k ≤ 3)%nat ∧ post_status a k = None
           ∧ ∀ j, (j < k)%nat → ∃ c, post_status a j = Some c ∧ c ≠ 200) →
     consume ip_address ip_network contains st pp a
     = (st, (upload (post_status a) (current_epoch st)).1
              ++ [LogError RequestException]))
  ∧ (Remove (current_epoch st)
       ∈ (consume ip_address ip_network contains st pp a).2
     ↔ ¬ ∃ k, (k ≤ 3)%nat ∧ post_status a k = None
              ∧ ∀ j, (j < k)%nat → ∃ c, post_status a j = Some c ∧ c ≠ 200).
Proof.
  intros Hsel Hlate Hfile.
  assert (Qle_bool (clock_test a) (inject_Z (in_duration_epoch st)) = false)
    as Hq.
  { destruct (Qle_bool _ _) eqn:E; [|done]. apply Qle_bool_iff in E.
    exfalso. by eapply Qlt_not_le. }
  destruct (upload_raises (post_status a) (current_epoch st)) as [Hends Hiff].
  assert ((∃ k, (k ≤ 3)%nat ∧ post_status a k = None
             ∧ ∀ j, (j < k)%nat → ∃ c, post_status a j = Some c ∧ c ≠ 200) →
          consume ip_address ip_network contains st pp a
          = (st, (upload (post_status a) (current_epoch st)).1
                   ++ [LogError RequestException])) as Hraised.
  { intros HR. apply Hiff in HR.
    destruct (upload (post_status a) (current_epoch st)) as [effs e] eqn:Hup.
    cbn [fst snd] in *. subst e. by eapply consume_upload_raised. }
  split_and!.
  - intros c0 c1 c2 c3 H0 H1 H2 H3 Hc0 Hc1 Hc2.
    assert (upload (post_status a) (current_epoch st)
            = ([Post true (current_epoch st); Sleep 1;
                Post false (current_epoch st); Sleep 2;
                Post false (current_epoch st); Sleep 3;
                Post false (current_epoch st)], None)) as Hup.
    { unfold upload. rewrite H0. cbn [retry_post].
      rewrite (proj2 (Z.eqb_neq c0 200) Hc0), H1.
      rewrite (proj2 (Z.eqb_neq c1 200) Hc1), H2.
      rewrite (proj2 (Z.eqb_neq c2 200) Hc2), H3.
      by cbn [Z.of_nat Pos.of_succ_nat Z.add Pos.add Pos.succ]. }
    destruct (consume_uploaded st pp a sel _ Hsel Hq Hfile Hup) as [rest Hr].
    exists rest. by rewrite Hr.
  - intros H0.
    apply (consume_upload_raised st pp a sel [Post true (current_epoch st)]
             RequestException Hsel Hq Hfile).
    unfold upload. by rewrite H0.
  - exact Hraised.
  - split.
    + intros Hin HR. rewrite (Hraised HR) in Hin. cbn [snd] in Hin.
      apply elem_of_app in Hin as [Hin|Hin].
      * by destruct (upload_only_posts_and_sleeps _ _ _ Hin) as [[b ?]|[n ?]].
      * by apply list_elem_of_singleton in Hin.
    + intros HR.
      destruct (upload (post_status a) (current_epoch st)) as [effs e] eqn:Hup.
      cbn [snd] in Hends, Hiff. destruct Hends as [->| ->].
      * destruct (consume_uploaded st pp a sel _ Hsel Hq Hfile Hup)
          as [rest ->].
        apply elem_of_app. right. apply elem_of_cons. by left.
      * by destruct HR; apply Hiff.
Qed.

End ConsumerLoop.

(** * The further properties on concrete inputs *)

(** Two datagrams handled on a fresh listener. *)
Lemma handle_keeps_arrival_order_witness :
  serving init = true
  ∧ pkt <$> input (exec toy_parse_packet init
                     (handle_all [(0%Q, Demo.sender, Demo.v5);
                                  (1%Q, Demo.sender, Demo.v99)])).1
    = (pkt <$> input init)
        ++ (raw <$> [(0%Q, Demo.sender, Demo.v5); (1%Q, Demo.sender, Demo.v99)]).
Proof.
  split; [reflexivity|].
  exact (proj1 (handle_keeps_arrival_order toy_parse_packet init
                  [(0%Q, Demo.sender, Demo.v5); (1%Q, Demo.sender, Demo.v99)]
                  eq_refl)).
Defined.

(** Two v5 exports are handled and decoded; a third is still queued. *)
Lemma in_order_delivery_witness :
  (∀ l, l ∈ (exec toy_parse_packet init
               [Start; Handle 0 Demo.sender Demo.v5;
                Handle 1 Demo.sender Demo.v5; Iterate 2;
                Handle 3 Demo.sender Demo.v5; Iterate 4]).2 →
        is_Some (attempted l) → output_puts (effects l) ≠ [])
  ∧ (origin_parsed <$> emitted (exec toy_parse_packet init
               [Start; Handle 0 Demo.sender Demo.v5;
                Handle 1 Demo.sender Demo.v5; Iterate 2;
                Handle 3 Demo.sender Demo.v5; Iterate 4]).2)
      ++ (origin_raw <$> input (exec toy_parse_packet init
               [Start; Handle 0 Demo.sender Demo.v5;
                Handle 1 Demo.sender Demo.v5; Iterate 2;
                Handle 3 Demo.sender Demo.v5; Iterate 4]).1)
    = origin_raw <$> handled (exec toy_parse_packet init
               [Start; Handle 0 Demo.sender Demo.v5;
                Handle 1 Demo.sender Demo.v5; Iterate 2;
                Handle 3 Demo.sender Demo.v5; Iterate 4]).2.
Proof.
  assert (∀ l, l ∈ (exec toy_parse_packet init
               [Start; Handle 0 Demo.sender Demo.v5;
                Handle 1 Demo.sender Demo.v5; Iterate 2;
                Handle 3 Demo.sender Demo.v5; Iterate 4]).2 →
        is_Some (attempted l) → output_puts (effects l) ≠ []) as Hall.
  { apply (proj1 (Forall_forall
                    (λ l, is_Some (attempted l) → output_puts (effects l) ≠ [])
                    _)).
    vm_compute exec.
    repeat (apply Forall_cons; split;
            [first [by intros [? [=]] | intros _; discriminate]|]).
    by apply Forall_nil. }
  split; [exact Hall|].
  exact (proj1 (in_order_delivery toy_parse_packet _ Hall)).
Defined.


(** 10.1.2.3 is outside 192.168.0.0/16 and inside 10.0.0.0/8; the
    malformed block behind them is not looked at. *)
Lemma first_matching_block_decides_witness :
  DemoFilter.ip_address DemoFilter.inside10 = Some DemoFilter.inside10
  ∧ DemoFilter.ip_network (JString "10.0.0.0/8") = Some (167772160, 184549375)
  ∧ DemoFilter.ip_network (JString "not a block") = None
  ∧ in_cidr_block DemoFilter.ip_address DemoFilter.ip_network
      DemoFilter.contains DemoFilter.inside10
      ([JString "192.168.0.0/16"]
         ++ JString "10.0.0.0/8" :: [JString "not a block"])
    = Returns true.
Proof.
  do 3 (split; [reflexivity|]).
  apply (first_matching_block_decides DemoFilter.ip_address
           DemoFilter.ip_network DemoFilter.contains DemoFilter.inside10
           DemoFilter.inside10 [JString "192.168.0.0/16"]
           (JString "10.0.0.0/8") (167772160, 184549375)
           [JString "not a block"]); try reflexivity.
  apply Forall_cons. split; [|by apply Forall_nil].
  exists (3232235520, 3232301055). by split.
Defined.

(** 8.8.8.8 against the two known blocks. *)
Lemma in_cidr_block_on_parsed_input_witness :
  Forall2 (λ c n, DemoFilter.ip_network c = Some n)
    [JString "10.0.0.0/8"; JString "192.168.0.0/16"]
    [(167772160, 184549375); (3232235520, 3232301055)]
  ∧ in_cidr_block DemoFilter.ip_address DemoFilter.ip_network
      DemoFilter.contains DemoFilter.outside [JString "10.0.0.0/8"; JString "192.168.0.0/16"]
    = Returns false.
Proof.
  assert (Forall2 (λ c n, DemoFilter.ip_network c = Some n)
            [JString "10.0.0.0/8"; JString "192.168.0.0/16"]
            [(167772160, 184549375); (3232235520, 3232301055)]) as Hall.
  { repeat constructor. }
  split; [exact Hall|].
  exact (proj1 (in_cidr_block_on_parsed_input DemoFilter.ip_address
                  DemoFilter.ip_network DemoFilter.contains DemoFilter.outside
                  _ _ Hall) DemoFilter.outside eq_refl).
Defined.

(** Of three flows, the one from inside and the one to inside are kept. *)
Lemma selected_flows_are_the_matching_ones_witness :
  select_flows DemoFilter.ip_address DemoFilter.ip_network DemoFilter.contains
    [JString "10.0.0.0/8"] []
    [DemoFilter.flow_in; DemoFilter.flow_out; DemoFilter.flow_to]
  = Returns [DemoFilter.flow_in; DemoFilter.flow_to]
  ∧ [DemoFilter.flow_in; DemoFilter.flow_to]
      `sublist_of` [DemoFilter.flow_in; DemoFilter.flow_out; DemoFilter.flow_to].
Proof.
  split; [reflexivity|].
  exact (proj1 (selected_flows_are_the_matching_ones DemoFilter.ip_address
                  DemoFilter.ip_network DemoFilter.contains [JString "10.0.0.0/8"]
                  [DemoFilter.flow_in; DemoFilter.flow_out; DemoFilter.flow_to]
                  [DemoFilter.flow_in; DemoFilter.flow_to] eq_refl)).
Defined.

(** The cut that began at 1000 ends at 1300; after a packet at 1301 the
    new cut again ends 300 seconds after its start. *)
Lemma cut_lasts_300_seconds_witness :
  in_duration_epoch DemoFilter.running = current_epoch DemoFilter.running + 300
  ∧ in_duration_epoch
      (consume_all DemoFilter.ip_address DemoFilter.ip_network
         DemoFilter.contains DemoFilter.running
         [(DemoFilter.packet, DemoFilter.all_fail)]).1
    = current_epoch
        (consume_all DemoFilter.ip_address DemoFilter.ip_network
           DemoFilter.contains DemoFilter.running
           [(DemoFilter.packet, DemoFilter.all_fail)]).1 + 300.
Proof.
  split; [reflexivity|].
  exact (cut_lasts_300_seconds DemoFilter.ip_address DemoFilter.ip_network
           DemoFilter.contains DemoFilter.running
           [(DemoFilter.packet, DemoFilter.all_fail)] eq_refl).
Defined.

(** Without blocks and files, two packets leave no trace. *)
Lemma empty_block_list_is_never_refreshed_witness :
  cidr_blocks DemoFilter.unfiltered = []
  ∧ files DemoFilter.unfiltered = ∅
  ∧ cidr_blocks
      (consume_all DemoFilter.ip_address DemoFilter.ip_network
         DemoFilter.contains DemoFilter.unfiltered
         [(DemoFilter.packet, DemoFilter.all_fail);
          (DemoFilter.packet, DemoFilter.all_fail)]).1 = [].
Proof.
  do 2 (split; [reflexivity|]).
  exact (proj1 (empty_block_list_is_never_refreshed DemoFilter.ip_address
                  DemoFilter.ip_network DemoFilter.contains
                  DemoFilter.unfiltered
                  [(DemoFilter.packet, DemoFilter.all_fail);
                   (DemoFilter.packet, DemoFilter.all_fail)]
                  eq_refl eq_refl)).
Defined.

(** Every POST answered with 500: four POSTs, then the file of cut 1000
    is removed. *)
Lemma file_removed_after_failed_upload_witness :
  select_flows DemoFilter.ip_address DemoFilter.ip_network DemoFilter.contains
    (cidr_blocks DemoFilter.running) []
    (flows (ParsedPacket.export DemoFilter.packet))
  = Returns [DemoFilter.flow_in; DemoFilter.flow_to]
  ∧ (inject_Z (in_duration_epoch DemoFilter.running)
     < clock_test DemoFilter.all_fail)%Q
  ∧ current_epoch DemoFilter.running ∈ files DemoFilter.running
  ∧ ∃ rest,
      (consume DemoFilter.ip_address DemoFilter.ip_network DemoFilter.contains
         DemoFilter.running DemoFilter.packet DemoFilter.all_fail).2
      = [Post true 1000; Sleep 1; Post false 1000; Sleep 2; Post false 1000;
         Sleep 3; Post false 1000; Remove 1000; GetFilter] ++ rest.
Proof.
  assert (current_epoch DemoFilter.running ∈ files DemoFilter.running) as Hfile.
  { change (1000 ∈ ({[1000]} : gset Z)). by apply elem_of_singleton_2. }
  split; [reflexivity|]. split; [reflexivity|]. split; [exact Hfile|].
  apply (proj1 (file_removed_after_failed_upload DemoFilter.ip_address
                  DemoFilter.ip_network DemoFilter.contains DemoFilter.running
                  DemoFilter.packet DemoFilter.all_fail
                  [DemoFilter.flow_in; DemoFilter.flow_to]
                  eq_refl eq_refl Hfile) 500 500 500 500);
    first [reflexivity | discriminate].
Defined.
